(** * The messaging layer of the dashboard: [edge_interface.py]

  A shallow embedding of [Command], [EventLoopMessage],
  [EventLoopResponse], [Postman], [Page] and [EdgeInterface], of the
  callbacks of [main.py], of the tag handling of [ie_databus.py] and of
  the part of [robots.py] that stores data, followed by the properties
  of the command/response protocol and of that code.

  Conventions of the embedding.
  - JSON values are an inductive type; JSON numbers are integers.
  - A Python exception is the [Raise] outcome of a computation.
  - [id(self)] is the address the allocator hands out.  Every operation
    that builds an [EventLoopResponse] takes that address as an
    argument; an object that stays referenced lives in an explicit heap,
    and its address is never handed out again while it lives there.
  - [threading.Event] is a boolean; a thread that waits on a cleared
    event has no step.
  - [queue.Queue] is a list, oldest entry first.
  - [on_load] and the click callbacks are functions of the application:
    a callable is known by name, and what it does to the page it was
    registered with is a parameter of the handler. *)

From stdpp Require Import base option list gmap strings pretty.

Local Open Scope Z_scope.
Local Set Warnings "-register-all".

(** ** JSON values and Python exceptions *)

Inductive Json :=
  | JNull
  | JBool (b : bool)
  | JNum (n : Z)
  | JStr (s : string)
  | JList (items : list Json)
  | JObj (fields : list (string * Json)).

Inductive PyError := KeyError | TypeError.

Inductive outcome (A : Type) :=
  | Ok (a : A)
  | Raise (e : PyError).
Arguments Ok {A} a.
Arguments Raise {A} e.

Global Instance outcome_ret : MRet outcome := @Ok.
Global Instance outcome_bind : MBind outcome := fun A B f m =>
  match m with
  | Ok a => f a
  | Raise e => Raise e
  end.

(** The binding of [k] in a parsed JSON object; [json.loads] keeps the
  last binding of a repeated key. *)
Fixpoint obj_lookup (k : string) (fields : list (string * Json)) : option Json :=
  match fields with
  | [] => None
  | (k', v) :: rest =>
      match obj_lookup k rest with
      | Some w => Some w
      | None => if String.eqb k' k then Some v else None
      end
  end.

(** [j[k]] for a string key [k]. *)
Definition getitem (j : Json) (k : string) : outcome Json :=
  match j with
  | JObj fields =>
      match obj_lookup k fields with
      | Some v => Ok v
      | None => Raise KeyError
      end
  | _ => Raise TypeError
  end.

(** [j == s] for a string literal [s]. *)
Definition eq_str (j : Json) (s : string) : bool :=
  match j with
  | JStr t => String.eqb t s
  | _ => false
  end.

(** [d[k]] for a dict keyed by integers and an arbitrary JSON key:
  [True] and [False] hash and compare as 1 and 0, lists and dicts are
  unhashable. *)
Definition getitem_int {V : Type} (d : gmap Z V) (k : Json) : outcome V :=
  match k with
  | JNum n => match d !! n with Some v => Ok v | None => Raise KeyError end
  | JBool b =>
      match d !! (if b then 1 else 0) with
      | Some v => Ok v
      | None => Raise KeyError
      end
  | JNull | JStr _ => Raise KeyError
  | JList _ | JObj _ => Raise TypeError
  end.

(** ** Command *)

Module Command.
Record t := mk { topic : string; payload : Json }.

Definition javascript (js : string) : t :=
  {| topic := "javascript"; payload := JStr js |}.

Definition update_interval (interval : Z) : t :=
  {| topic := "update_interval"; payload := JNum interval |}.
End Command.

(** ** EventLoopMessage *)

Module EventLoopMessage.
Record t := mk { topic : Json; payload : Json; id : Json }.

Definition init (input_json : Json) : outcome t :=
  tp ← getitem input_json "topic";
  pl ← getitem input_json "payload";
  i ← getitem input_json "id";
  mret {| topic := tp; payload := pl; id := i |}.
End EventLoopMessage.

(** ** Packets: the dicts built by [to_json] *)

Module Packet.
Record t := mk {
  topic : string;
  id : Z;
  should_respond : bool;
  payload : Json
}.
End Packet.

(** ** EventLoopResponse *)

Module EventLoopResponse.
Record t := mk {
  topic : string;
  payload : Json;
  should_respond : bool;
  id : Z;
  event : bool;
  result : Json
}.

(** [addr] is the address of the new object, hence its [id]. *)
Definition init (command : Command.t) (should_respond : bool) (addr : Z) : t :=
  {| topic := Command.topic command;
     payload := Command.payload command;
     should_respond := should_respond;
     id := addr;
     event := false;
     result := JNull |}.

Definition to_json (self : t) : Packet.t :=
  {| Packet.topic := topic self;
     Packet.id := id self;
     Packet.should_respond := should_respond self;
     Packet.payload := payload self |}.

Definition nothing (addr : Z) : t :=
  init (Command.mk "nothing" JNull) false addr.

(** [self.result = v; self.event.set()] *)
Definition resolve (v : Json) (self : t) : t :=
  {| topic := topic self;
     payload := payload self;
     should_respond := should_respond self;
     id := id self;
     event := true;
     result := v |}.
End EventLoopResponse.

(** The objects that stay referenced, by address. *)
Abbreviation Heap := (gmap Z EventLoopResponse.t).

(** ** Postman *)

Module Postman.
Record t := mk {
  outgoing_packet_queue : list Packet.t;
  in_waiting : gmap Z Z   (* id -> reference to the waiting response *)
}.

Definition init : t :=
  {| outgoing_packet_queue := []; in_waiting := ∅ |}.

Definition put (p : Packet.t) (self : t) : t :=
  {| outgoing_packet_queue := outgoing_packet_queue self ++ [p];
     in_waiting := in_waiting self |}.

Definition invalidate_outgoing_packets (self : t) : t :=
  {| outgoing_packet_queue := []; in_waiting := in_waiting self |}.

Definition send (command : Command.t) (addr : Z) (self : t) : t :=
  let response := EventLoopResponse.init command false addr in
  put (EventLoopResponse.to_json response) self.

(** The mutation goes through the reference stored in [in_waiting]. *)
Definition process_message (message : EventLoopMessage.t)
    (heap : Heap) (self : t) : outcome Heap :=
  ref ← getitem_int (in_waiting self) (EventLoopMessage.id message);
  mret (alter (EventLoopResponse.resolve (EventLoopMessage.payload message))
              ref heap).

Definition get_new_packet (addr : Z) (self : t) : Packet.t * t :=
  match outgoing_packet_queue self with
  | p :: rest =>
      (p, {| outgoing_packet_queue := rest; in_waiting := in_waiting self |})
  | [] => (EventLoopResponse.to_json (EventLoopResponse.nothing addr), self)
  end.

(** [alloc i] is the address of the object built in iteration [i]. *)
Definition send_buffer_packets (alloc : nat → Z) (num_packets : Z) (self : t) : t :=
  foldl (fun pm i =>
           put (EventLoopResponse.to_json (EventLoopResponse.nothing (alloc i))) pm)
        self (seq 0 (Z.to_nat num_packets)).

(** *** [send_and_receive], one source line per step *)

Inductive pc :=
  | AtCall (command : Command.t)   (* before line 187 *)
  | AtPut (response : Z)           (* before line 188 *)
  | AtRegister (response : Z)      (* before line 189 *)
  | AtWait (response : Z)          (* before line 190 *)
  | AtReturn (response : Z)        (* before line 191 *)
  | Returned (v : Json).

(** [None]: the thread has no step (it waits on a cleared event, it has
  returned, or [addr] is the address of a live object). *)
Definition step (addr : Z) (l : pc) (heap : Heap) (self : t)
    : option (pc * Heap * t) :=
  match l with
  | AtCall command =>
      match heap !! addr with
      | Some _ => None
      | None =>
          Some (AtPut addr,
                <[addr := EventLoopResponse.init command true addr]> heap,
                self)
      end
  | AtPut r =>
      response ← heap !! r;
      Some (AtRegister r, heap, put (EventLoopResponse.to_json response) self)
  | AtRegister r =>
      response ← heap !! r;
      Some (AtWait r, heap,
            {| outgoing_packet_queue := outgoing_packet_queue self;
               in_waiting := <[EventLoopResponse.id response := r]> (in_waiting self) |})
  | AtWait r =>
      response ← heap !! r;
      if EventLoopResponse.event response
      then Some (AtReturn r, heap, self)
      else None
  | AtReturn r =>
      response ← heap !! r;
      Some (Returned (EventLoopResponse.result response), heap, self)
  | Returned _ => None
  end.
End Postman.

(** ** Python strings

    A [str] is the string of its UTF-8 bytes; the byte of a newline or a
    double quote occurs in no other character. *)

Definition newline : Ascii.ascii := Ascii.ascii_of_nat 10.

Definition dquote : string := String (Ascii.ascii_of_nat 34) EmptyString.

(** [s.replace(old, new)] for a one-character [old]. *)
Fixpoint str_replace (old : Ascii.ascii) (new : string) (s : string) : string :=
  match s with
  | EmptyString => EmptyString
  | String c rest =>
      if Ascii.eqb c old
      then new +:+ str_replace old new rest
      else String c (str_replace old new rest)
  end.

(** [sep.join(items)] *)
Fixpoint str_join (sep : string) (items : list string) : string :=
  match items with
  | [] => EmptyString
  | x :: rest =>
      match rest with
      | [] => x
      | _ :: _ => x +:+ sep +:+ str_join sep rest
      end
  end.

(** [c in s] for a character [c]. *)
Fixpoint str_contains (c : Ascii.ascii) (s : string) : bool :=
  match s with
  | EmptyString => false
  | String c' rest => Ascii.eqb c' c || str_contains c rest
  end.

(** ** Page *)

(** A Python callable held by a page: the default [lambda: None] of
    [Page.__init__], or a function of the application, known by name. *)
Inductive Callable :=
  | Lambda_None
  | Fn (name : nat).

Module Page.
Record t := mk {
  template : string;
  template_kwargs : list (string * string);
  on_load : Callable;
  _update_interval : Z;
  _has_loaded_event : bool;
  _postman : Postman.t;
  _callbacks : gmap string Callable
}.

Definition init (template : string) (template_kwargs : list (string * string)) : t :=
  {| template := template;
     template_kwargs := template_kwargs;
     on_load := Lambda_None;
     _update_interval := 100;
     _has_loaded_event := false;
     _postman := Postman.init;
     _callbacks := ∅ |}.

Definition with_loaded (b : bool) (self : t) : t :=
  {| template := template self;
     template_kwargs := template_kwargs self;
     on_load := on_load self;
     _update_interval := _update_interval self;
     _has_loaded_event := b;
     _postman := _postman self;
     _callbacks := _callbacks self |}.

Definition with_postman (pm : Postman.t) (self : t) : t :=
  {| template := template self;
     template_kwargs := template_kwargs self;
     on_load := on_load self;
     _update_interval := _update_interval self;
     _has_loaded_event := _has_loaded_event self;
     _postman := pm;
     _callbacks := _callbacks self |}.

(** [self.on_load = f] *)
Definition set_on_load (f : Callable) (self : t) : t :=
  {| template := template self;
     template_kwargs := template_kwargs self;
     on_load := f;
     _update_interval := _update_interval self;
     _has_loaded_event := _has_loaded_event self;
     _postman := _postman self;
     _callbacks := _callbacks self |}.

Definition on_button_click (tag_id : string) (callback : Callable) (self : t) : t :=
  {| template := template self;
     template_kwargs := template_kwargs self;
     on_load := on_load self;
     _update_interval := _update_interval self;
     _has_loaded_event := _has_loaded_event self;
     _postman := _postman self;
     _callbacks := <[tag_id := callback]> (_callbacks self) |}.

(** The getter and the setter of the [update_interval] property. *)
Definition update_interval (self : t) : Z := _update_interval self.

Definition set_update_interval (interval : Z) (addr : Z) (self : t) : t :=
  {| template := template self;
     template_kwargs := template_kwargs self;
     on_load := on_load self;
     _update_interval := interval;
     _has_loaded_event := _has_loaded_event self;
     _postman := Postman.send (Command.update_interval interval) addr (_postman self);
     _callbacks := _callbacks self |}.

(** [evaluate_javascript(js, get_output=False)]; with [get_output=True]
    the call is [Postman.send_and_receive], modelled by [Postman.step]. *)
Definition evaluate_javascript (js : string) (addr : Z) (self : t) : t :=
  with_postman (Postman.send (Command.javascript js) addr (_postman self)) self.

(** The start of every script that addresses a tag:
    [document.getElementById("{tag_id}")]. *)
Definition element (tag_id : string) : string :=
  "document.getElementById(" +:+ dquote +:+ tag_id +:+ dquote +:+ ")".

Definition set_text (tag_id text : string) (addr : Z) (self : t) : t :=
  let text := str_replace newline "<br />" text in
  let js := element tag_id +:+ ".innerHTML = " +:+ dquote +:+ text +:+ dquote +:+ ";" in
  evaluate_javascript js addr self.

Definition set_button_text (tag_id text : string) (addr : Z) (self : t) : t :=
  let text := str_replace newline "<br />" text in
  let js := element tag_id +:+ ".value = " +:+ dquote +:+ text +:+ dquote +:+ ";" in
  evaluate_javascript js addr self.

Definition console_log (text : string) (addr : Z) (self : t) : t :=
  let js := "console.log(" +:+ dquote +:+ text +:+ dquote +:+ ");" in
  evaluate_javascript js addr self.

Definition set_image_src (tag_id src : string) (addr : Z) (self : t) : t :=
  let js := element tag_id +:+ ".src = " +:+ dquote +:+ src +:+ dquote +:+ ";" in
  evaluate_javascript js addr self.

(** [filetype] defaults to ['jpg']. *)
Definition set_image_base64 (tag_id base64_str filetype : string) (addr : Z)
    (self : t) : t :=
  set_image_src tag_id ("data:image/" +:+ filetype +:+ ";base64, " +:+ base64_str)
                addr self.

(** [get_input_data(tag_id)] is [evaluate_javascript(js, get_output=True)],
    a call of [Postman.send_and_receive]: where its thread starts. *)
Definition get_input_data (tag_id : string) : Postman.pc :=
  Postman.AtCall (Command.javascript (element tag_id +:+ ".value;")).

(** [wait_for_page_load]: [None] while the event is cleared. *)
Definition wait_for_page_load (self : t) : option unit :=
  if _has_loaded_event self then Some () else None.

(** *** The request handler *)

Inductive Request :=
  | GET
  | POST (json : Json).

Inductive Response :=
  | Html (markup : string)
  | Dict (packet : Packet.t).

(** What the handler called, in order. *)
Inductive Call :=
  | OnLoadCall (f : Callable)
  | CallbackCall (tag_id : string) (f : Callable).

Definition on_load_calls (calls : list Call) : list Callable :=
  omap (fun c => match c with OnLoadCall f => Some f | _ => None end) calls.

Definition callback_calls (calls : list Call) : list (string * Callable) :=
  omap (fun c => match c with CallbackCall tag_id f => Some (tag_id, f) | _ => None end)
       calls.

Record world := mkWorld {
  self : t;
  heap : Heap;
  invoked : list Call
}.

Definition with_self (p : t) (w : world) : world :=
  {| self := p; heap := heap w; invoked := invoked w |}.

Section Handler.

(** The functions of the application, run to completion on the page they
    were registered with, and the template engine. *)
Variable run : nat → t → t.
Variable render_template : string → list (string * string) → string.

Definition call (f : Callable) (p : t) : t :=
  match f with
  | Lambda_None => p
  | Fn name => run name p
  end.

Definition invoke (c : Call) (f : Callable) (w : world) : world :=
  {| self := call f (self w); heap := heap w; invoked := invoked w ++ [c] |}.

(** Line 313. *)
Definition mark_loaded (w : world) : world :=
  with_self (with_loaded true (self w)) w.

(** Line 314. *)
Definition run_on_load (w : world) : world :=
  invoke (OnLoadCall (on_load (self w))) (on_load (self w)) w.

Definition noop (addr : Z) : Response :=
  Dict (EventLoopResponse.to_json (EventLoopResponse.nothing addr)).

(** Lines 323-324. *)
Definition onclick (key : Json) (w : world) : outcome unit * world :=
  match key with
  | JStr tag_id =>
      match _callbacks (self w) !! tag_id with
      | Some f => (Ok (), invoke (CallbackCall tag_id f) f w)
      | None => (Ok (), w)
      end
  | JList _ | JObj _ => (Raise TypeError, w)
  | JNull | JBool _ | JNum _ => (Ok (), w)
  end.

(** Lines 316-328. *)
Definition dispatch (addr : Z) (json : Json) (w : world) : outcome Response * world :=
  match EventLoopMessage.init json with
  | Raise e => (Raise e, w)
  | Ok message =>
      if eq_str (EventLoopMessage.topic message) "command_loop" then
        let '(packet, pm) := Postman.get_new_packet addr (_postman (self w)) in
        (Ok (Dict packet), with_self (with_postman pm (self w)) w)
      else if eq_str (EventLoopMessage.topic message) "onclick" then
        match getitem (EventLoopMessage.payload message) "id" with
        | Raise e => (Raise e, w)
        | Ok key =>
            match onclick key w with
            | (Raise e, w') => (Raise e, w')
            | (Ok _, w') => (Ok (noop addr), w')
            end
        end
      else
        match Postman.process_message message (heap w) (_postman (self w)) with
        | Raise e => (Raise e, w)
        | Ok heap' =>
            (Ok (noop addr),
             {| self := self w; heap := heap'; invoked := invoked w |})
        end
  end.

(** Lines 331-336. *)
Definition reload (alloc : nat → Z) (p : t) : t :=
  let p1 := with_loaded false p in
  let p2 := with_postman (Postman.invalidate_outgoing_packets (_postman p1)) p1 in
  let p3 := with_postman (Postman.send_buffer_packets alloc 2 (_postman p2)) p2 in
  set_update_interval (_update_interval p3) (alloc 2%nat) p3.

(** Lines 312-314. *)
Definition check_loaded (w : world) : world :=
  if _has_loaded_event (self w) then w else run_on_load (mark_loaded w).

(** [alloc i] is the address of the [i]-th object the handler builds. *)
Definition on_request (alloc : nat → Z) (request : Request) (w : world)
    : outcome Response * world :=
  match request with
  | POST json =>
      dispatch (alloc 0%nat) json (check_loaded w)
  | GET =>
      let p := reload alloc (self w) in
      (Ok (Html (render_template (template p) (template_kwargs p))),
       with_self p w)
  end.

(** *** The POST handler, one source line per step *)

Inductive hpc :=
  | AtCheck (json : Json)      (* before line 312 *)
  | AtSet (json : Json)        (* before line 313 *)
  | AtOnLoad (json : Json)     (* before line 314 *)
  | AtMessage (json : Json)    (* before line 316 *)
  | Done (r : outcome Response).

Definition hstep (addr : Z) (l : hpc) (w : world) : hpc * world :=
  match l with
  | AtCheck json =>
      if _has_loaded_event (self w) then (AtMessage json, w) else (AtSet json, w)
  | AtSet json => (AtOnLoad json, mark_loaded w)
  | AtOnLoad json => (AtMessage json, run_on_load w)
  | AtMessage json =>
      let '(r, w') := dispatch addr json w in (Done r, w')
  | Done r => (Done r, w)
  end.

(** Worker threads of the listener, each in a POST; the schedule names
    the thread that runs its next line. *)
Fixpoint interleave (addr : Z) (schedule : list nat) (workers : list hpc)
    (w : world) : list hpc * world :=
  match schedule with
  | [] => (workers, w)
  | i :: rest =>
      match workers !! i with
      | Some l =>
          let '(l', w') := hstep addr l w in
          interleave addr rest (<[i := l']> workers) w'
      | None => interleave addr rest workers w
      end
  end.

(** Requests served one after the other. *)
Fixpoint serve (alloc : nat → Z) (requests : list Request) (w : world) : world :=
  match requests with
  | [] => w
  | request :: rest => serve alloc rest (snd (on_request alloc request w))
  end.

End Handler.
End Page.

(** ** Threads around one Postman

    Application threads call [send] and [send_and_receive]; the listener
    serves poll ticks ([get_new_packet]), replies ([process_message]) and
    reloads ([invalidate_outgoing_packets]).  A schedule lists what
    happens, one atomic action after the other. *)

Module Sched.

Inductive action :=
  | Spawn (command : Command.t)         (* a thread enters send_and_receive *)
  | Step (thread : nat) (addr : Z)      (* that thread runs its next line *)
  | Send (command : Command.t) (addr : Z)
  | Poll (addr : Z)
  | Reply (message : EventLoopMessage.t)
  | Invalidate.

(** What the page and the callers can observe. *)
Inductive obs :=
  | Enqueued (p : Packet.t)     (* a packet was put on the queue *)
  | Delivered (p : Packet.t)    (* a poll tick took the packet off the queue *)
  | Idle (p : Packet.t)         (* a poll tick found the queue empty *)
  | Failed (e : PyError).       (* the handler of a reply raised *)

Record state := mk {
  heap : Heap;
  postman : Postman.t;
  threads : list Postman.pc;
  trace : list obs
}.

Definition init : state :=
  {| heap := ∅; postman := Postman.init; threads := []; trace := [] |}.

Definition enqueued_at (l : Postman.pc) (h : Heap) : list obs :=
  match l with
  | Postman.AtPut r =>
      match h !! r with
      | Some response => [Enqueued (EventLoopResponse.to_json response)]
      | None => []
      end
  | _ => []
  end.

(** A [Step] of a thread that has no step leaves the state as it is.
    The listener answers a reply whose handler raised with an error
    page and goes on: the exception is recorded, the state is kept. *)
Definition exec (a : action) (s : state) : state :=
  match a with
  | Spawn command =>
      {| heap := heap s; postman := postman s;
         threads := threads s ++ [Postman.AtCall command];
         trace := trace s |}
  | Step thread addr =>
      match threads s !! thread with
      | Some l =>
          match Postman.step addr l (heap s) (postman s) with
          | Some (l', h', pm') =>
              {| heap := h'; postman := pm';
                 threads := <[thread := l']> (threads s);
                 trace := trace s ++ enqueued_at l (heap s) |}
          | None => s
          end
      | None => s
      end
  | Send command addr =>
      {| heap := heap s;
         postman := Postman.send command addr (postman s);
         threads := threads s;
         trace := trace s ++
           [Enqueued (EventLoopResponse.to_json
                        (EventLoopResponse.init command false addr))] |}
  | Poll addr =>
      let '(p, pm') := Postman.get_new_packet addr (postman s) in
      {| heap := heap s; postman := pm'; threads := threads s;
         trace := trace s ++
           [match Postman.outgoing_packet_queue (postman s) with
            | [] => Idle p
            | _ :: _ => Delivered p
            end] |}
  | Reply message =>
      match Postman.process_message message (heap s) (postman s) with
      | Ok h' =>
          {| heap := h'; postman := postman s; threads := threads s;
             trace := trace s |}
      | Raise e =>
          {| heap := heap s; postman := postman s; threads := threads s;
             trace := trace s ++ [Failed e] |}
      end
  | Invalidate =>
      {| heap := heap s;
         postman := Postman.invalidate_outgoing_packets (postman s);
         threads := threads s;
         trace := trace s |}
  end.

Fixpoint run (schedule : list action) (s : state) : state :=
  match schedule with
  | [] => s
  | a :: rest => run rest (exec a s)
  end.

Definition enqueued (tr : list obs) : list Packet.t :=
  omap (fun o => match o with Enqueued p => Some p | _ => None end) tr.

Definition delivered (tr : list obs) : list Packet.t :=
  omap (fun o => match o with Delivered p => Some p | _ => None end) tr.

(** A call [send(c)] whose response is built at address [a], and the
    packet it enqueues. *)
Definition send_of (call : Command.t * Z) : action := Send call.1 call.2.

Definition serialized (call : Command.t * Z) : Packet.t :=
  EventLoopResponse.to_json (EventLoopResponse.init call.1 false call.2).

(** What was enqueued is what was delivered, then what is queued. *)
Definition balanced (s : state) : Prop :=
  enqueued (trace s) =
  delivered (trace s) ++ Postman.outgoing_packet_queue (postman s).

Definition is_invalidate (a : action) : bool :=
  match a with Invalidate => true | _ => false end.

(** The reply carries the id [r]: the key finds the entry of [r]. *)
Definition answers (r : Z) (message : EventLoopMessage.t) : bool :=
  match EventLoopMessage.id message with
  | JNum n => bool_decide (n = r)
  | JBool b => bool_decide ((if b then 1 else 0) = r)
  | _ => false
  end.

(** The action leaves thread [t] and its response [r] alone: it is not
    a step of [t] and not a reply that carries [r]. *)
Definition quiet (t : nat) (r : Z) (a : action) : bool :=
  match a with
  | Step thread _ => negb (Nat.eqb thread t)
  | Reply message => negb (answers r message)
  | _ => true
  end.

(** Ids are addresses: every entry of [in_waiting] refers to the object
    of that id, and every object carries its own address. *)
Definition wf (s : state) : Prop :=
  (∀ k r, Postman.in_waiting (postman s) !! k = Some r → r = k) ∧
  (∀ r response, heap s !! r = Some response → EventLoopResponse.id response = r).

(** The payloads an action posts for the response [r]. *)
Definition posted (r : Z) (a : action) : list Json :=
  match a with
  | Reply message =>
      if answers r message then [EventLoopMessage.payload message] else []
  | _ => []
  end.

(** Where the call of thread [t] stands once it has built its response
    at [r], given the payloads [seen] that were posted for [r]. *)
Definition call_inv (t : nat) (r : Z) (seen : list Json) (s : state) : Prop :=
  ∃ response, heap s !! r = Some response ∧
  match threads s !! t with
  | Some (Postman.AtPut r') | Some (Postman.AtRegister r') =>
      r' = r ∧
      (EventLoopResponse.event response = true →
       EventLoopResponse.result response ∈ seen)
  | Some (Postman.AtWait r') =>
      r' = r ∧ Postman.in_waiting (postman s) !! r = Some r ∧
      (EventLoopResponse.event response = true →
       EventLoopResponse.result response ∈ seen)
  | Some (Postman.AtReturn r') =>
      r' = r ∧ Postman.in_waiting (postman s) !! r = Some r ∧
      EventLoopResponse.result response ∈ seen
  | Some (Postman.Returned v) =>
      Postman.in_waiting (postman s) !! r = Some r ∧ v ∈ seen
  | Some (Postman.AtCall _) | None => False
  end.

(** Thread [t] stands at line [l], and its response, at address [r],
    is [response]. *)
Definition at_line (t : nat) (r : Z) (l : Postman.pc)
    (response : EventLoopResponse.t) (s : state) : Prop :=
  threads s !! t = Some l ∧ heap s !! r = Some response ∧ wf s.

(** No thread but [t] runs. *)
Definition solo (t : nat) (a : action) : bool :=
  match a with
  | Step thread _ => Nat.eqb thread t
  | _ => true
  end.

(** The race of lines 188-189: the reply for 512 is handled after the
    packet was put on the queue and before the response is registered. *)
Definition race : list action :=
  [ Spawn (Command.javascript "1+1");
    Step 0 512;                                   (* line 187 *)
    Step 0 0;                                     (* line 188 *)
    Poll 600;
    Reply (EventLoopMessage.mk (JStr "result") (JNum 2) (JNum 512));
    Step 0 0;                                     (* line 189 *)
    Step 0 0 ].                                   (* line 190 *)

(** Scenario A: poll, reply, return. *)
Definition scenario_a : list action :=
  [ Step 0 512; Step 0 0; Step 0 0;
    Poll 600;
    Reply (EventLoopMessage.mk (JStr "result") (JNum 2) (JNum 512));
    Step 0 0; Step 0 0 ].

End Sched.

(** ** A small application, for the examples

    Function [n] of the application writes to the console of the page;
    the template engine returns the template path. *)

Module Demo.

Definition run (name : nat) (p : Page.t) : Page.t :=
  Page.evaluate_javascript "console.log(1);" (Z.of_nat name) p.

Definition render_template (template : string) (kwargs : list (string * string)) : string :=
  template.

Definition alloc (i : nat) : Z := 9000 + Z.of_nat i.

Definition body (topic : string) (payload : Json) (id : Z) : Json :=
  JObj [("topic", JStr topic); ("payload", payload); ("id", JNum id)].

(** The main page with [on_load] set and a callback on [btn1]. *)
Definition page : Page.t :=
  Page.on_button_click "btn1" (Fn 1) (Page.set_on_load (Fn 0) (Page.init "index.html" [])).

(** One exchange, with id 512, waits for its reply. *)
Definition waiting : EventLoopResponse.t :=
  EventLoopResponse.init (Command.javascript "1+1") true 512.

Definition world : Page.world :=
  {| Page.self :=
       Page.with_postman
         {| Postman.outgoing_packet_queue := [];
            Postman.in_waiting := {[ 512 := 512 ]} |} page;
     Page.heap := {[ 512 := waiting ]};
     Page.invoked := [] |}.

End Demo.

(** ** Requests served in a row, calls made in a row *)

Module Serving.

(** A call of one of the setters of [Page] that do not wait for the
    page: [set_text], [set_button_text], [console_log],
    [set_image_src], [set_image_base64] and
    [evaluate_javascript(js, get_output=False)]. *)
Inductive Setter :=
  | SetText (tag_id text : string)
  | SetButtonText (tag_id text : string)
  | ConsoleLog (text : string)
  | SetImageSrc (tag_id src : string)
  | SetImageBase64 (tag_id base64_str filetype : string)
  | EvaluateJavascript (js : string).

Definition perform (c : Setter) (addr : Z) (p : Page.t) : Page.t :=
  match c with
  | SetText tag_id text => Page.set_text tag_id text addr p
  | SetButtonText tag_id text => Page.set_button_text tag_id text addr p
  | ConsoleLog text => Page.console_log text addr p
  | SetImageSrc tag_id src => Page.set_image_src tag_id src addr p
  | SetImageBase64 tag_id base64_str filetype =>
      Page.set_image_base64 tag_id base64_str filetype addr p
  | EvaluateJavascript js => Page.evaluate_javascript js addr p
  end.

(** The calls one after the other; the [i]-th builds its object at
    [alloc i]. *)
Definition perform_all (alloc : nat → Z) (calls : list Setter) (p : Page.t) : Page.t :=
  foldl (fun p '(i, c) => perform c (alloc i) p) p (zip (seq 0 (length calls)) calls).

(** [page.update_interval = n] for each [n], in order. *)
Definition set_intervals (alloc : nat → Z) (intervals : list Z) (p : Page.t) : Page.t :=
  foldl (fun p '(i, n) => Page.set_update_interval n (alloc i) p) p
        (zip (seq 0 (length intervals)) intervals).

Section Handler.
Variable run : nat → Page.t → Page.t.
Variable render_template : string → list (string * string) → string.

(** The responses to requests served one after the other. *)
Fixpoint responses (alloc : nat → Z) (requests : list Page.Request)
    (w : Page.world) : list (outcome Page.Response) :=
  match requests with
  | [] => []
  | request :: rest =>
      let '(r, w') := Page.on_request run render_template alloc request w in
      r :: responses alloc rest w'
  end.

End Handler.

(** The body of a poll tick. *)
Definition poll_body (payload id : Json) : Json :=
  JObj [("topic", JStr "command_loop"); ("payload", payload); ("id", id)].

End Serving.

(** ** EdgeInterface

    [pages] is a dict in insertion order: a list of bindings, read
    through [lookup].  The Flask application is the listener: [route]
    is what its URL rule for a path does with a request, and whether it
    takes a rule is Flask's to say ([add_url_rule]).  The server thread
    is known by whether it was started. *)

Module EdgeInterface.

Inductive Error :=
  | PageAlreadyExists
  | MissingMainPage
  | RuntimeError              (* [Thread.start] on a started thread *)
  | Raised (exception : string)   (* raised by Flask, by class name *)
  | Py (e : PyError).

Inductive attempt (A : Type) :=
  | Success (a : A)
  | Failure (e : Error).
Arguments Success {A} a.
Arguments Failure {A} e.

Record t := mk {
  pages : list (string * Page.t);
  server : bool
}.

Definition init : t := {| pages := []; server := false |}.

(** [pages[path]] *)
Fixpoint lookup (path : string) (pages : list (string * Page.t)) : option Page.t :=
  match pages with
  | [] => None
  | (path', page) :: rest =>
      if String.eqb path' path then Some page else lookup path rest
  end.

(** [pages[path] = page] for a [path] that may be bound already. *)
Fixpoint store (path : string) (page : Page.t) (pages : list (string * Page.t))
    : list (string * Page.t) :=
  match pages with
  | [] => [(path, page)]
  | (path', page') :: rest =>
      if String.eqb path' path then (path', page) :: rest
      else (path', page') :: store path page rest
  end.

(** [str.startswith('/')] *)
Definition leading_slash (rule : string) : bool := String.prefix "/" rule.

(** [app.add_url_rule(rule, endpoint, view_func, methods=...)] is
    Flask's: [add_url_rule rule] is the class of the exception it
    raises for the rule, [None] when it takes the rule.  The endpoint is
    the id of the page built one line before, so it is never taken.
    Werkzeug refuses a rule that does not start with a slash with
    [ValueError]. *)
Definition refuses_relative (add_url_rule : string → option string) : Prop :=
  ∀ rule, leading_slash rule = false → add_url_rule rule = Some "ValueError".

Section Flask.
Variable add_url_rule : string → option string.

Definition add_page (subdirectory template : string)
    (template_kwargs : list (string * string)) (self : t) : attempt t :=
  match lookup subdirectory (pages self) with
  | Some _ => Failure PageAlreadyExists
  | None =>
      let page := Page.init template template_kwargs in
      match add_url_rule subdirectory with
      | Some exception => Failure (Raised exception)
      | None =>
          Success {| pages := store subdirectory page (pages self);
                     server := server self |}
      end
  end.

(** [add_page] for each page in turn; a call that raises changes nothing. *)
Definition add_pages (calls : list (string * string)) (self : t) : t :=
  foldl (fun i '(path, template) =>
           match add_page path template [] i with
           | Success i' => i'
           | Failure _ => i
           end) self calls.

End Flask.

(** [start_server], line by line. *)
Inductive pc :=
  | AtStart        (* before line 549 *)
  | AtWaitLoad     (* before line 553 *)
  | Started.

(** [None]: the caller has no step (it waits for the main page, or it
    has returned). *)
Definition start_server (l : pc) (self : t) : option (attempt (pc * t)) :=
  match l with
  | AtStart =>
      match lookup "/" (pages self) with
      | None => Some (Failure MissingMainPage)
      | Some _ =>
          if server self then Some (Failure RuntimeError)
          else Some (Success (AtWaitLoad, {| pages := pages self; server := true |}))
      end
  | AtWaitLoad =>
      match lookup "/" (pages self) with
      | None => Some (Failure (Py KeyError))
      | Some page =>
          match Page.wait_for_page_load page with
          | Some _ => Some (Success (Started, self))
          | None => None
          end
      end
  | Started => None
  end.

(** The [i]-th page, in insertion order, builds its object at [alloc i]. *)
Definition set_global_update_interval (alloc : nat → Z) (interval : Z) (self : t) : t :=
  {| pages := imap (fun i '(path, page) =>
                      (path, Page.set_update_interval interval (alloc i) page))
                   (pages self);
     server := server self |}.

Record world := mkWorld {
  self : t;
  heap : Heap;
  invoked : list Page.Call
}.

Section Listener.
Variable run : nat → Page.t → Page.t.
Variable render_template : string → list (string * string) → string.

(** A request for [path]: [None] when no rule is bound to the path (the
    listener answers by itself). *)
Definition route (alloc : nat → Z) (path : string) (request : Page.Request)
    (w : world) : option (outcome Page.Response * world) :=
  match lookup path (pages (self w)) with
  | None => None
  | Some page =>
      let '(r, pw) :=
        Page.on_request run render_template alloc request
          {| Page.self := page; Page.heap := heap w; Page.invoked := invoked w |} in
      Some (r, {| self := {| pages := store path (Page.self pw) (pages (self w));
                             server := server (self w) |};
                  heap := Page.heap pw;
                  invoked := Page.invoked pw |})
  end.

End Listener.

End EdgeInterface.

(** ** The callbacks of [main.py] that drive the page *)

Module Main.

(** [itertools.cycle([75, 50, 25, 10, 100])], known by the number of
    [next] calls made so far. *)
Definition intervals : list Z := [75; 50; 25; 10; 100].

Definition next (calls : nat) : Z * nat :=
  (nth (calls mod 5) intervals 0, S calls).

Definition on_update_interval_click (alloc : nat → Z) (calls : nat) (page : Page.t)
    : nat * Page.t :=
  let '(new_interval, calls') := next calls in
  let page := Page.set_update_interval new_interval (alloc 0%nat) page in
  let page := Page.set_button_text "update_interval_button"
                (pretty (Page.update_interval page) +:+ "ms") (alloc 1%nat) page in
  (calls', page).

(** [clicks] clicks on the button, one after the other. *)
Fixpoint click (alloc : nat → Z) (clicks : nat) (calls : nat) (page : Page.t)
    : nat * Page.t :=
  match clicks with
  | O => (calls, page)
  | S n =>
      let '(calls', page') := click alloc n calls page in
      on_update_interval_click alloc calls' page'
  end.

End Main.

(** ** robots.py: what does not compute with numbers

    Coordinates and joint angles are only stored by this part of the
    code: [number] is their type, [zero] the [0] of [Robot.__init__]. *)

Module Robots.

Record PlotConfig := mkPlotConfig {
  line_color : option string;          (* a colour, or [None] *)
  enable_tool_history : bool;
  tool_history_color : string;
  enable_axis_lines : bool;
  axis_line_length : Z;
  enable_tool_position : bool
}.

(** The defaults of the dataclass. *)
Definition default_plot_config : PlotConfig :=
  {| line_color := Some "black";
     enable_tool_history := false;
     tool_history_color := "blue";
     enable_axis_lines := false;
     axis_line_length := 50;
     enable_tool_position := true |}.

Inductive Error := ValueError.

Section Numbers.
Variable number : Type.
Variable zero : number.

Record ToolHistory := mkToolHistory {
  xs : list number;
  ys : list number;
  zs : list number
}.

Definition empty_history : ToolHistory := {| xs := []; ys := []; zs := [] |}.

Definition clear (h : ToolHistory) : ToolHistory := {| xs := []; ys := []; zs := [] |}.

Definition add_coord (x y z : number) (h : ToolHistory) : ToolHistory :=
  {| xs := xs h ++ [x]; ys := ys h ++ [y]; zs := zs h ++ [z] |}.

Definition to_scatter (h : ToolHistory) : list number * list number * list number :=
  (xs h, ys h, zs h).

Record Robot := mkRobot {
  _link_lengths : list Z;
  _joint_angles : list number;
  plot_config : PlotConfig;
  _tool_history : ToolHistory
}.

(** [Robot.__init__]; [[0] * num_joints] is empty for a negative count. *)
Definition init (link_lengths : list Z) (num_joints : Z) : Robot :=
  {| _link_lengths := link_lengths;
     _joint_angles := replicate (Z.to_nat num_joints) zero;
     plot_config := default_plot_config;
     _tool_history := empty_history |}.

Definition WhiteRobot : Robot := init [275; 190; 700; 190; 500; 162; 210] 6.

Definition BlueRobot : Robot := init [330; 40; 385; 340; 160] 6.

(** What is assigned to [joint_angles]: a list, or any other object. *)
Inductive Value :=
  | AList (items : list number)
  | NotAList.

Definition joint_angles (self : Robot) : list number := _joint_angles self.

(** The setter of [joint_angles]. *)
Definition set_joint_angles (value : Value) (self : Robot) : Error + Robot :=
  match value with
  | NotAList => inl ValueError
  | AList items =>
      if negb (Nat.eqb (length items) (length (_joint_angles self)))
      then inl ValueError
      else inr {| _link_lengths := _link_lengths self;
                  _joint_angles := items;
                  plot_config := plot_config self;
                  _tool_history := _tool_history self |}
  end.

Definition clear_tool_history (self : Robot) : Robot :=
  {| _link_lengths := _link_lengths self;
     _joint_angles := _joint_angles self;
     plot_config := plot_config self;
     _tool_history := clear (_tool_history self) |}.

Definition with_plot_config (c : PlotConfig) (self : Robot) : Robot :=
  {| _link_lengths := _link_lengths self;
     _joint_angles := _joint_angles self;
     plot_config := c;
     _tool_history := _tool_history self |}.

(** Assignments one after the other; one that raises changes nothing. *)
Definition assign_all (values : list Value) (self : Robot) : Robot :=
  foldl (fun r v => match set_joint_angles v r with inr r' => r' | inl _ => r end)
        self values.

(** An operation on a tool history. *)
Inductive HistoryOp :=
  | Clear
  | AddCoord (x y z : number).

Definition apply_op (h : ToolHistory) (op : HistoryOp) : ToolHistory :=
  match op with
  | Clear => clear h
  | AddCoord x y z => add_coord x y z h
  end.

(** The coordinates added since the last [clear]. *)
Fixpoint since_clear (ops : list HistoryOp) (acc : list (number * number * number))
    : list (number * number * number) :=
  match ops with
  | [] => acc
  | Clear :: rest => since_clear rest []
  | AddCoord x y z :: rest => since_clear rest (acc ++ [(x, y, z)])
  end.

End Numbers.
End Robots.

(** ** main.py: the toggle buttons

    The globals [robots], [actives] and [old_data], and the callbacks
    that change them. *)

Module Toggles.

Inductive ToggleID := T_ACTIVE | T_HISTORY | T_COORDS | T_AXIS.

Inductive Error := IndexError.

Section Numbers.
Variable number : Type.
Variable minus_one : number.   (* the [-1.0] of [force_replot] *)

Record globals := mkGlobals {
  robots : list (Robots.Robot number);
  actives : list bool;
  old_data : list (list number)
}.

(** [old_data[i] = x]: the state after the statement, and the
    [IndexError] it raised if [i] is out of range. *)
Definition force_replot (specific_index : option nat) (g : globals)
    : globals * option Error :=
  match specific_index with
  | None =>
      ({| robots := robots g; actives := actives g;
          old_data := replicate (length (robots g)) (replicate 6 minus_one) |}, None)
  | Some i =>
      match old_data g !! i with
      | Some _ =>
          ({| robots := robots g; actives := actives g;
              old_data := <[i := replicate 6 minus_one]> (old_data g) |}, None)
      | None => (g, Some IndexError)
      end
  end.

Definition toggle_config (t_id : ToggleID) (c : Robots.PlotConfig) : Robots.PlotConfig :=
  match t_id with
  | T_ACTIVE => c
  | T_HISTORY =>
      Robots.mkPlotConfig (Robots.line_color c) (negb (Robots.enable_tool_history c))
        (Robots.tool_history_color c) (Robots.enable_axis_lines c)
        (Robots.axis_line_length c) (Robots.enable_tool_position c)
  | T_COORDS =>
      Robots.mkPlotConfig (Robots.line_color c) (Robots.enable_tool_history c)
        (Robots.tool_history_color c) (Robots.enable_axis_lines c)
        (Robots.axis_line_length c) (negb (Robots.enable_tool_position c))
  | T_AXIS =>
      Robots.mkPlotConfig (Robots.line_color c) (Robots.enable_tool_history c)
        (Robots.tool_history_color c) (negb (Robots.enable_axis_lines c))
        (Robots.axis_line_length c) (Robots.enable_tool_position c)
  end.

(** [robot_index] comes from [range(len(robots))]: it is not negative.
    The result is the state the callback leaves, and the [IndexError]
    it raised if an index was out of range. *)
Definition on_toggle_click (robot_index : nat) (t_id : ToggleID) (g : globals)
    : globals * option Error :=
  match robots g !! robot_index with
  | None => (g, Some IndexError)
  | Some robot =>
      match t_id with
      | T_ACTIVE =>
          match actives g !! robot_index with
          | None => (g, Some IndexError)
          | Some b =>
              force_replot (Some robot_index)
                {| robots := robots g;
                   actives := <[robot_index := negb b]> (actives g);
                   old_data := old_data g |}
          end
      | _ =>
          let robot :=
            match t_id with
            | T_HISTORY => Robots.clear_tool_history number robot
            | _ => robot
            end in
          force_replot (Some robot_index)
            {| robots :=
                 <[robot_index :=
                     Robots.with_plot_config number
                       (toggle_config t_id (Robots.plot_config number robot)) robot]>
                   (robots g);
               actives := actives g;
               old_data := old_data g |}
      end
  end.

Definition party (c : Robots.PlotConfig) : Robots.PlotConfig :=
  Robots.mkPlotConfig
    (match Robots.line_color c with None => Some "black" | Some _ => None end)
    (Robots.enable_tool_history c) (Robots.tool_history_color c)
    (Robots.enable_axis_lines c) (Robots.axis_line_length c)
    (Robots.enable_tool_position c).

Definition on_secret_party_mode_button_click (g : globals) : globals :=
  {| robots := (fun r => Robots.with_plot_config number
                           (party (Robots.plot_config number r)) r) <$> robots g;
     actives := actives g;
     old_data := old_data g |}.

(** The globals as the module sets them up, once [old_data] is bound. *)
Definition start (zero : number) : globals :=
  {| robots := [Robots.WhiteRobot number zero; Robots.BlueRobot number zero;
                Robots.BlueRobot number zero];
     actives := [false; false; false];
     old_data := replicate 3 (replicate 6 minus_one) |}.

End Numbers.
End Toggles.

(** ** ie_databus.py: the tags of the PLC

    The MQTT client is the environment: [on_message] is given the topic
    of a message and its payload as parsed by [json.loads].  The values
    of a tag are stored as they come. *)

Module IEDatabus.

Inductive Error :=
  | Py (e : PyError)
  | IndexError.

(** *** Subscripts and loops over JSON values *)

(** A byte that continues a UTF-8 character. *)
Definition is_continuation (c : Ascii.ascii) : bool :=
  (128 <=? Ascii.nat_of_ascii c)%nat && (Ascii.nat_of_ascii c <? 192)%nat.

(** The continuation bytes a string starts with, then its characters. *)
Fixpoint split_chars (s : string) : string * list string :=
  match s with
  | EmptyString => (EmptyString, [])
  | String c rest =>
      let '(pre, cs) := split_chars rest in
      if is_continuation c then (String c pre, cs)
      else (EmptyString, String c pre :: cs)
  end.

Definition chars (s : string) : list string := (split_chars s).2.

(** The keys of a parsed object, in the order [json.loads] met them. *)
Fixpoint keys (fields : list (string * Json)) : list string :=
  match fields with
  | [] => []
  | (k, _) :: rest => k :: filter (fun k' => k' ≠ k) (keys rest)
  end.

(** [j[k]] for a string [k]. *)
Definition item (j : Json) (k : string) : Error + Json :=
  match getitem j k with
  | Ok v => inr v
  | Raise e => inl (Py e)
  end.

(** [j[0]]; the keys of a parsed object are strings, never 0. *)
Definition first (j : Json) : Error + Json :=
  match j with
  | JList [] => inl IndexError
  | JList (x :: _) => inr x
  | JStr s =>
      match chars s with
      | [] => inl IndexError
      | c :: _ => inr (JStr c)
      end
  | JObj _ => inl (Py KeyError)
  | JNull | JBool _ | JNum _ => inl (Py TypeError)
  end.

(** What [for x in j] runs over. *)
Definition elements (j : Json) : Error + list Json :=
  match j with
  | JList items => inr items
  | JObj fields => inr (JStr <$> keys fields)
  | JStr s => inr (JStr <$> chars s)
  | JNull | JBool _ | JNum _ => inl (Py TypeError)
  end.

(** *** Dicts keyed by JSON values, in insertion order *)

Definition hashable (k : Json) : bool :=
  match k with
  | JList _ | JObj _ => false
  | _ => true
  end.

(** [a == b] for hashable keys: [True] and [False] are 1 and 0. *)
Definition same_key (a b : Json) : bool :=
  match a, b with
  | JNull, JNull => true
  | JStr s, JStr t => String.eqb s t
  | JBool x, JBool y => Bool.eqb x y
  | JBool x, JNum n | JNum n, JBool x => Z.eqb (if x then 1 else 0) n
  | JNum n, JNum m => Z.eqb n m
  | _, _ => false
  end.

Fixpoint find {A} (k : Json) (d : list (Json * A)) : option A :=
  match d with
  | [] => None
  | (k', v) :: rest => if same_key k' k then Some v else find k rest
  end.

Fixpoint bind {A} (k : Json) (v : A) (d : list (Json * A)) : list (Json * A) :=
  match d with
  | [] => [(k, v)]
  | (k', v') :: rest =>
      if same_key k' k then (k', v) :: rest else (k', v') :: bind k v rest
  end.

(** [d[k]] *)
Definition get {A} (k : Json) (d : list (Json * A)) : Error + A :=
  if hashable k then
    match find k d with
    | Some v => inr v
    | None => inl (Py KeyError)
    end
  else inl (Py TypeError).

(** [d[k] = v] *)
Definition set {A} (k : Json) (v : A) (d : list (Json * A)) : Error + list (Json * A) :=
  if hashable k then inr (bind k v d) else inl (Py TypeError).

(** *** Tags *)

Record Tag := mkTag {
  name : Json;
  id : Json;
  data_type : Json;
  qc : Json;
  ts : Json;
  val : Json
}.

Record t := mk {
  write_topic : string;
  _tags : list (Json * Tag);
  _tag_headers : list (Json * Json);
  _ready_event : bool
}.

Definition init : t :=
  {| write_topic := "ie/d/j/simatic/v1/s7c1/dp/w/USC_PLC";
     _tags := [];
     _tag_headers := [];
     _ready_event := false |}.

(** The getter of [tags] returns a copy of the dict. *)
Definition tags (self : t) : list (Json * Tag) := _tags self.

Definition with_headers (headers : list (Json * Json)) (self : t) : t :=
  {| write_topic := write_topic self;
     _tags := _tags self;
     _tag_headers := headers;
     _ready_event := _ready_event self |}.

(** [data['connections'][0]['dataPoints'][0]['dataPointDefinitions']] *)
Definition definitions (data : Json) : Error + Json :=
  match item data "connections" with
  | inl e => inl e
  | inr connections =>
      match first connections with
      | inl e => inl e
      | inr connection =>
          match item connection "dataPoints" with
          | inl e => inl e
          | inr points =>
              match first points with
              | inl e => inl e
              | inr point => item point "dataPointDefinitions"
              end
          end
      end
  end.

(** The loop over the definitions: the headers stored when the loop
    ended, and the exception that ended it, if one did. *)
Fixpoint store_headers (points : list Json) (headers : list (Json * Json))
    : list (Json * Json) * option Error :=
  match points with
  | [] => (headers, None)
  | data_point :: rest =>
      match item data_point "id" with
      | inl e => (headers, Some e)
      | inr k =>
          match set k data_point headers with
          | inl e => (headers, Some e)
          | inr headers' => store_headers rest headers'
          end
      end
  end.

(** One round of the loop over [data['vals']]. *)
Definition make_tag (headers : list (Json * Json)) (value_dict : Json)
    (tags : list (Json * Tag)) : Error + list (Json * Tag) :=
  match item value_dict "id" with
  | inl e => inl e
  | inr k =>
  match get k headers with
  | inl e => inl e
  | inr header =>
  match item header "name" with
  | inl e => inl e
  | inr name =>
  match item header "id" with
  | inl e => inl e
  | inr id =>
  match item header "dataType" with
  | inl e => inl e
  | inr data_type =>
  match item value_dict "qc" with
  | inl e => inl e
  | inr qc =>
  match item value_dict "ts" with
  | inl e => inl e
  | inr ts =>
  match item value_dict "val" with
  | inl e => inl e
  | inr val =>
      set name {| name := name; id := id; data_type := data_type;
                  qc := qc; ts := ts; val := val |} tags
  end end end end end end end end.

Fixpoint make_tags (headers : list (Json * Json)) (values : list Json)
    (tags : list (Json * Tag)) : Error + list (Json * Tag) :=
  match values with
  | [] => inr tags
  | value_dict :: rest =>
      match make_tag headers value_dict tags with
      | inl e => inl e
      | inr tags' => make_tags headers rest tags'
      end
  end.

(** [_on_message]: the state it leaves and the exception it raised, if
    it raised one. *)
Definition on_message (topic : string) (data : Json) (self : t) : t * option Error :=
  if String.eqb topic (write_topic self) then (self, None)
  else
    match _tag_headers self with
    | [] =>
        match definitions data with
        | inl (Py KeyError) => (self, None)
        | inl e => (self, Some e)
        | inr dpds =>
            match elements dpds with
            | inl e => (self, Some e)
            | inr points =>
                let '(headers, e) := store_headers points (_tag_headers self) in
                (with_headers headers self, e)
            end
        end
    | _ :: _ =>
        match item data "vals" with
        | inl e => (self, Some e)
        | inr vals =>
            match elements vals with
            | inl e => (self, Some e)
            | inr values =>
                match make_tags (_tag_headers self) values [] with
                | inl e => (self, Some e)
                | inr tags =>
                    ({| write_topic := write_topic self;
                        _tags := tags;
                        _tag_headers := _tag_headers self;
                        _ready_event := true |}, None)
                end
            end
        end
    end.

(** The payload [write_to_tag] publishes on [write_topic]. *)
Definition write_to_tag (tag : string) (data : Json) (self : t) : Error + Json :=
  match get (JStr tag) (tags self) with
  | inl e => inl e
  | inr found =>
      inr (JObj [("seq", JNum 1);
                 ("vals", JList [JObj [("id", id found); ("val", data)]])])
  end.

(** Messages handled one after the other. *)
Definition handle (messages : list (string * Json)) (self : t) : t :=
  foldl (fun s m => (on_message m.1 m.2 s).1) self messages.

(** [tag] is what one round of the loop over [values] builds from
    [value_dict] and the header stored for its id. *)
Definition built_from (headers : list (Json * Json)) (value_dict : Json) (tag : Tag)
    : Prop :=
  ∃ k header,
    item value_dict "id" = inr k ∧ get k headers = inr header ∧
    item header "name" = inr (name tag) ∧
    item header "id" = inr (id tag) ∧
    item header "dataType" = inr (data_type tag) ∧
    item value_dict "qc" = inr (qc tag) ∧
    item value_dict "ts" = inr (ts tag) ∧
    item value_dict "val" = inr (val tag).

(** A header message and a value message of the PLC, for the examples. *)
Definition header_message : Json :=
  JObj [("connections",
         JList [JObj [("dataPoints",
           JList [JObj [("dataPointDefinitions",
             JList [JObj [("name", JStr "M_R01_S"); ("id", JStr "101");
                          ("dataType", JStr "Real")];
                    JObj [("name", JStr "M_R01_L"); ("id", JStr "102");
                          ("dataType", JStr "Real")]])]])]])].

Definition value_message : Json :=
  JObj [("vals",
         JList [JObj [("id", JStr "101"); ("qc", JNum 3); ("ts", JStr "t0");
                      ("val", JNum 45)]])].

End IEDatabus.

(** ** main.py: reading the joint angles *)

Module MainLoop.

Definition letters : list string := ["S"; "L"; "U"; "R"; "B"; "T"].

(** [f'M_R0{i + 1}_{joint_letter}'] for every robot and joint. *)
Definition tag_names (robots : nat) : list (list string) :=
  (fun i => (fun joint_letter => "M_R0" +:+ pretty (i + 1)%nat +:+ "_" +:+ joint_letter)
              <$> letters) <$> seq 0 robots.

(** [[current_tags[tag].val for tag in tag_group]] *)
Fixpoint read_group (current_tags : list (Json * IEDatabus.Tag))
    (tag_group : list string) : IEDatabus.Error + list Json :=
  match tag_group with
  | [] => inr []
  | tag :: rest =>
      match IEDatabus.get (JStr tag) current_tags with
      | inl e => inl e
      | inr found =>
          match read_group current_tags rest with
          | inl e => inl e
          | inr vals => inr (IEDatabus.val found :: vals)
          end
      end
  end.

Fixpoint read_groups (current_tags : list (Json * IEDatabus.Tag))
    (groups : list (list string)) : IEDatabus.Error + list (list Json) :=
  match groups with
  | [] => inr []
  | tag_group :: rest =>
      match read_group current_tags tag_group with
      | inl e => inl e
      | inr row =>
          match read_groups current_tags rest with
          | inl e => inl e
          | inr rows => inr (row :: rows)
          end
      end
  end.

(** [get_joint_data()], for [len(robots)] robots and the tags of the
    databus. *)
Definition get_joint_data (robots : nat) (databus : IEDatabus.t)
    : IEDatabus.Error + list (list Json) :=
  read_groups (IEDatabus.tags databus) (tag_names robots).

End MainLoop.

(** ** More sample states, for the examples *)

Module Sample.

Definition packet1 : Packet.t :=
  EventLoopResponse.to_json (EventLoopResponse.init (Command.javascript "a()") false 1).

Definition packet2 : Packet.t :=
  EventLoopResponse.to_json (EventLoopResponse.init (Command.update_interval 50) false 2).

(** The page of [Demo], loaded, with two packets queued. *)
Definition loaded : Page.world :=
  {| Page.self :=
       Page.with_loaded true
         (Page.with_postman
            {| Postman.outgoing_packet_queue := [packet1; packet2];
               Postman.in_waiting := {[ 512 := 512 ]} |} Demo.page);
     Page.heap := {[ 512 := Demo.waiting ]};
     Page.invoked := [] |}.

Definition click_on (tag_id : string) : Json :=
  Demo.body "onclick" (JObj [("id", JStr tag_id)]) 0.

(** An interface with the page of [Demo] at [/], the server started. *)
Definition interface : EdgeInterface.world :=
  {| EdgeInterface.self := {| EdgeInterface.pages := [("/", Demo.page)];
                              EdgeInterface.server := true |};
     EdgeInterface.heap := ∅;
     EdgeInterface.invoked := [] |}.

(** One call, registered, waits at line 190 for the reply to 512. *)
Definition waiting : Sched.state :=
  Sched.run [Sched.Spawn (Command.javascript "1+1");
             Sched.Step 0 512; Sched.Step 0 0; Sched.Step 0 0] Sched.init.

Definition reply (payload : Z) : EventLoopMessage.t :=
  EventLoopMessage.mk (JStr "result") (JNum payload) (JNum 512).

(** A Flask that refuses the rules without a leading slash, and no
    others. *)
Definition add_url_rule (rule : string) : option string :=
  if EdgeInterface.leading_slash rule then None else Some "ValueError".

(** A thread that is about to call [get_input_data]. *)
Definition reading : Sched.state :=
  {| Sched.heap := ∅; Sched.postman := Postman.init;
     Sched.threads := [Page.get_input_data "speed"]; Sched.trace := [] |}.

End Sample.

(** * Properties *)

(** ** The outbound queue *)

Module PostmanFacts.
Import Postman.

Lemma put_queue p pm :
  outgoing_packet_queue (put p pm) = outgoing_packet_queue pm ++ [p].
Proof. reflexivity. Qed.

Lemma put_in_waiting p pm : in_waiting (put p pm) = in_waiting pm.
Proof. reflexivity. Qed.

Lemma send_buffer_packets_queue alloc n pm :
  outgoing_packet_queue (send_buffer_packets alloc (Z.of_nat n) pm) =
  outgoing_packet_queue pm ++
  map (fun i => EventLoopResponse.to_json (EventLoopResponse.nothing (alloc i))) (seq 0 n).
Proof.
  unfold send_buffer_packets. rewrite Nat2Z.id.
  generalize 0%nat. revert pm.
  induction n as [|n IH]; intros pm k; simpl.
  - by rewrite app_nil_r.
  - rewrite IH, put_queue, <- app_assoc. reflexivity.
Qed.

(** C6: on an empty queue [get_new_packet] returns at once, leaves the
    Postman as it is, and the packet is the serialized
    [EventLoopResponse.nothing()]: topic [nothing], [should_respond]
    false, payload [None]. *)
Theorem get_new_packet_empty addr pm :
  outgoing_packet_queue pm = [] →
  get_new_packet addr pm =
    (EventLoopResponse.to_json (EventLoopResponse.nothing addr), pm) ∧
  Packet.topic (get_new_packet addr pm).1 = "nothing" ∧
  Packet.should_respond (get_new_packet addr pm).1 = false ∧
  Packet.payload (get_new_packet addr pm).1 = JNull.
Proof.
  intros Hq. unfold get_new_packet. rewrite Hq. done.
Qed.

Lemma get_new_packet_empty_witness :
  outgoing_packet_queue Postman.init = [] ∧
  get_new_packet 77 Postman.init =
    (EventLoopResponse.to_json (EventLoopResponse.nothing 77), Postman.init) ∧
  Packet.topic (get_new_packet 77 Postman.init).1 = "nothing" ∧
  Packet.should_respond (get_new_packet 77 Postman.init).1 = false ∧
  Packet.payload (get_new_packet 77 Postman.init).1 = JNull.
Proof.
  split; [reflexivity | apply (get_new_packet_empty 77 Postman.init); reflexivity].
Defined.

(** C7: whatever the queue held, [get_new_packet] right after
    [invalidate_outgoing_packets] returns the serialized
    [EventLoopResponse.nothing()] and leaves the invalidated Postman as
    it is. *)
Theorem get_new_packet_after_invalidate addr pm :
  get_new_packet addr (invalidate_outgoing_packets pm) =
    (EventLoopResponse.to_json (EventLoopResponse.nothing addr),
     invalidate_outgoing_packets pm).
Proof. reflexivity. Qed.

End PostmanFacts.

(** ** The request handler *)

Module PageFacts.
Import Page.

Section Handler.
Variable run : nat → Page.t → Page.t.
Variable render_template : string → list (string * string) → string.

Local Abbreviation on_request := (Page.on_request run render_template).
Local Abbreviation check_loaded := (Page.check_loaded run).
Local Abbreviation dispatch := (Page.dispatch run).
Local Abbreviation serve := (Page.serve run render_template).

Lemma reload_loaded alloc p : _has_loaded_event (reload alloc p) = false.
Proof. reflexivity. Qed.

Lemma reload_interval alloc p : _update_interval (reload alloc p) = _update_interval p.
Proof. reflexivity. Qed.

(** C10: when a GET completes the outbound queue holds exactly three
    packets: two serialized [EventLoopResponse.nothing()] and then the
    [update_interval] packet whose payload is the interval of the page,
    which the handler leaves as it was. *)
Theorem get_leaves_three_packets alloc w :
  let w' := (on_request alloc GET w).2 in
  Postman.outgoing_packet_queue (_postman (self w')) =
    [ EventLoopResponse.to_json (EventLoopResponse.nothing (alloc 0%nat));
      EventLoopResponse.to_json (EventLoopResponse.nothing (alloc 1%nat));
      {| Packet.topic := "update_interval";
         Packet.id := alloc 2%nat;
         Packet.should_respond := false;
         Packet.payload := JNum (update_interval (self w)) |} ] ∧
  update_interval (self w') = update_interval (self w).
Proof. split; reflexivity. Qed.

Lemma check_loaded_callback_calls w :
  callback_calls (invoked (check_loaded w)) = callback_calls (invoked w).
Proof.
  unfold Page.check_loaded. destruct (_has_loaded_event (self w)); [done|].
  unfold run_on_load, invoke, callback_calls; simpl.
  rewrite omap_app; simpl. by rewrite app_nil_r.
Qed.

(** C9: a POST with topic [onclick] whose payload carries the element
    id [tag_id].  If a callback is registered for it (when the handler
    looks it up) the handler calls it exactly once; if none is, the
    handler calls nothing and changes nothing.  Either way the handler
    raises nothing and answers with the serialized
    [EventLoopResponse.nothing()]. *)
Theorem onclick_post alloc w json payload id tag_id :
  EventLoopMessage.init json =
    Ok (EventLoopMessage.mk (JStr "onclick") payload id) →
  getitem payload "id" = Ok (JStr tag_id) →
  let w1 := check_loaded w in
  let '(r, w') := on_request alloc (POST json) w in
  r = Ok (noop (alloc 0%nat)) ∧
  match _callbacks (self w1) !! tag_id with
  | Some f =>
      w' = invoke run (CallbackCall tag_id f) f w1 ∧
      callback_calls (invoked w') = callback_calls (invoked w) ++ [(tag_id, f)]
  | None =>
      w' = w1 ∧ callback_calls (invoked w') = callback_calls (invoked w)
  end.
Proof.
  intros Hmsg Hid w1. simpl. unfold Page.dispatch. rewrite Hmsg. simpl.
  rewrite Hid. unfold onclick. fold w1.
  destruct (_callbacks (self w1) !! tag_id) as [f|] eqn:Hcb.
  - split; [done|]. split; [done|].
    unfold invoke, callback_calls; simpl. rewrite omap_app; simpl.
    fold (callback_calls (invoked w1)). subst w1.
    by rewrite check_loaded_callback_calls.
  - split; [done|]. split; [done|]. subst w1. apply check_loaded_callback_calls.
Qed.

(** *** Replies that match no waiting response *)

Lemma check_loaded_heap w : heap (check_loaded w) = heap w.
Proof. unfold Page.check_loaded. by destruct (_has_loaded_event (self w)). Qed.

(** C2, as the code has it: a reply whose integer id is not a key of
    [in_waiting] makes [process_message] raise [KeyError]; the handler
    lets it through and returns no packet.  Nothing is written: the
    heap of waiting responses, [in_waiting] and the queue are as the
    load check left them. *)
Theorem unknown_reply_post alloc w json message n :
  EventLoopMessage.init json = Ok message →
  eq_str (EventLoopMessage.topic message) "command_loop" = false →
  eq_str (EventLoopMessage.topic message) "onclick" = false →
  EventLoopMessage.id message = JNum n →
  Postman.in_waiting (_postman (self (check_loaded w))) !! n = None →
  Postman.process_message message (heap w) (_postman (self (check_loaded w)))
    = Raise KeyError ∧
  on_request alloc (POST json) w = (Raise KeyError, check_loaded w) ∧
  heap (on_request alloc (POST json) w).2 = heap w.
Proof.
  intros Hmsg Hpoll Hclick Hid Hnone.
  assert (Hpm : ∀ h, Postman.process_message message h
                       (_postman (self (check_loaded w))) = Raise KeyError).
  { intros h. unfold Postman.process_message. rewrite Hid. simpl.
    by rewrite Hnone. }
  split; [apply Hpm|].
  assert (Hreq : on_request alloc (POST json) w = (Raise KeyError, check_loaded w)).
  { simpl. unfold Page.dispatch. rewrite Hmsg, Hpoll, Hclick. by rewrite Hpm. }
  split; [exact Hreq|]. rewrite Hreq. apply check_loaded_heap.
Qed.

(** *** The load flag *)

Section Flag.
Hypothesis run_keeps_flag :
  ∀ name p, _has_loaded_event (run name p) = _has_loaded_event p.

Lemma call_keeps_flag f p :
  _has_loaded_event (call run f p) = _has_loaded_event p.
Proof. destruct f; [done | apply run_keeps_flag]. Qed.

Lemma onclick_keeps key w :
  _has_loaded_event (self (onclick run key w).2) = _has_loaded_event (self w) ∧
  on_load_calls (invoked (onclick run key w).2) = on_load_calls (invoked w).
Proof.
  destruct key; simpl; try done.
  destruct (_callbacks (self w) !! s); simpl; [|done].
  split; [apply call_keeps_flag|].
  unfold on_load_calls. rewrite omap_app. simpl. by rewrite app_nil_r.
Qed.

Lemma dispatch_keeps addr json w :
  _has_loaded_event (self (dispatch addr json w).2) = _has_loaded_event (self w) ∧
  on_load_calls (invoked (dispatch addr json w).2) = on_load_calls (invoked w).
Proof.
  unfold Page.dispatch.
  destruct (EventLoopMessage.init json) as [message|e]; [|done].
  destruct (eq_str (EventLoopMessage.topic message) "command_loop").
  { by destruct (Postman.get_new_packet addr (_postman (self w))). }
  destruct (eq_str (EventLoopMessage.topic message) "onclick").
  { destruct (getitem (EventLoopMessage.payload message) "id") as [key|e]; [|done].
    pose proof (onclick_keeps key w) as Hk.
    by destruct (onclick run key w) as [[u|e] w']. }
  by destruct (Postman.process_message message (heap w) (_postman (self w))).
Qed.

Lemma post_when_loaded alloc json w :
  _has_loaded_event (self w) = true →
  _has_loaded_event (self (on_request alloc (POST json) w).2) = true ∧
  on_load_calls (invoked (on_request alloc (POST json) w).2) =
    on_load_calls (invoked w).
Proof.
  intros Hl. simpl. unfold Page.check_loaded. rewrite Hl.
  destruct (dispatch_keeps (alloc 0%nat) json w) as [-> ->]. done.
Qed.

Lemma post_when_unloaded alloc json w :
  _has_loaded_event (self w) = false →
  _has_loaded_event (self (on_request alloc (POST json) w).2) = true ∧
  on_load_calls (invoked (on_request alloc (POST json) w).2) =
    on_load_calls (invoked w) ++ [on_load (self w)].
Proof.
  intros Hl. simpl. unfold Page.check_loaded. rewrite Hl.
  destruct (dispatch_keeps (alloc 0%nat) json (run_on_load run (mark_loaded w)))
    as [-> ->].
  split.
  - simpl. apply call_keeps_flag.
  - unfold on_load_calls. simpl. by rewrite omap_app.
Qed.

Lemma serve_posts_when_loaded alloc posts w :
  _has_loaded_event (self w) = true →
  _has_loaded_event (self (serve alloc (map POST posts) w)) = true ∧
  on_load_calls (invoked (serve alloc (map POST posts) w)) = on_load_calls (invoked w).
Proof.
  revert w. induction posts as [|json posts IH]; intros w Hl; [done|].
  destruct (post_when_loaded alloc json w Hl) as [Hl' Hc].
  cbn [map Page.serve]. destruct (IH _ Hl') as [? ->]. done.
Qed.

(** C4, for requests served one after the other and application
    functions that leave the load flag alone: the flag is false when a
    GET completes; the next POST sets it and calls [on_load] once; the
    POSTs after it, up to the next GET, keep it set and do not call
    [on_load] again. *)
Theorem load_cycle alloc w json posts :
  let w0 := (on_request alloc GET w).2 in
  let w1 := (on_request alloc (POST json) w0).2 in
  let w2 := serve alloc (map POST posts) w1 in
  (_has_loaded_event (self w0) = false ∧ invoked w0 = invoked w) ∧
  (_has_loaded_event (self w1) = true ∧
   on_load_calls (invoked w1) = on_load_calls (invoked w) ++ [on_load (self w)]) ∧
  (_has_loaded_event (self w2) = true ∧
   on_load_calls (invoked w2) = on_load_calls (invoked w1)).
Proof.
  intros w0 w1 w2.
  assert (H0 : _has_loaded_event (self w0) = false) by reflexivity.
  split; [done|].
  destruct (post_when_unloaded alloc json w0 H0) as [H1 Hc].
  split; [by split|].
  by apply serve_posts_when_loaded.
Qed.

End Flag.

(** A worker that runs alone computes [on_request]. *)
Lemma worker_alone alloc json w :
  interleave run (alloc 0%nat) [0; 0; 0; 0]%nat [AtCheck json] w =
  ([Done (on_request alloc (POST json) w).1], (on_request alloc (POST json) w).2).
Proof.
  simpl. unfold Page.check_loaded.
  destruct (_has_loaded_event (self w)) eqn:Hl; simpl.
  - by destruct (dispatch (alloc 0%nat) json w).
  - by destruct (dispatch (alloc 0%nat) json (run_on_load run (mark_loaded w))).
Qed.

End Handler.

Lemma onclick_post_witness :
  let json := JObj [("topic", JStr "onclick");
                    ("payload", JObj [("id", JStr "btn1")]);
                    ("id", JNum 0)] in
  let '(r, w') := Page.on_request Demo.run Demo.render_template Demo.alloc
                    (POST json) Demo.world in
  r = Ok (noop 9000) ∧
  callback_calls (invoked w') = [("btn1", Fn 1)].
Proof.
  pose proof (onclick_post Demo.run Demo.render_template Demo.alloc Demo.world
                (JObj [("topic", JStr "onclick");
                       ("payload", JObj [("id", JStr "btn1")]);
                       ("id", JNum 0)])
                (JObj [("id", JStr "btn1")]) (JNum 0) "btn1"
                eq_refl eq_refl) as H.
  simpl. simpl in H. destruct H as [Hr H]. split; [exact Hr|].
  vm_compute. reflexivity.
Defined.

Lemma unknown_reply_post_witness :
  let json := Demo.body "result" (JNum 2) 7 in
  Page.on_request Demo.run Demo.render_template Demo.alloc (POST json) Demo.world =
    (Raise KeyError, Page.check_loaded Demo.run Demo.world).
Proof.
  exact (proj1 (proj2
    (unknown_reply_post Demo.run Demo.render_template Demo.alloc Demo.world
       (Demo.body "result" (JNum 2) 7)
       (EventLoopMessage.mk (JStr "result") (JNum 2) (JNum 7)) 7
       eq_refl eq_refl eq_refl eq_refl eq_refl))).
Defined.

(** C2, as stated, fails: the id 7 was never issued (the one waiting
    response has id 512), and the handler raises [KeyError] instead of
    returning the no-op packet. *)
Lemma unknown_reply_raises :
  let r := (Page.on_request Demo.run Demo.render_template Demo.alloc
              (POST (Demo.body "result" (JNum 2) 7)) Demo.world).1 in
  Postman.in_waiting (_postman (self Demo.world)) !! 7 = None ∧
  r = Raise KeyError ∧
  ¬ ∃ addr, r = Ok (noop addr).
Proof.
  split; [reflexivity|]. split; [reflexivity|].
  intros [addr H]. vm_compute in H. discriminate H.
Qed.

Lemma load_cycle_witness :
  let w0 := (Page.on_request Demo.run Demo.render_template Demo.alloc GET Demo.world).2 in
  let w1 := (Page.on_request Demo.run Demo.render_template Demo.alloc
               (POST (Demo.body "command_loop" JNull 0)) w0).2 in
  let w2 := Page.serve Demo.run Demo.render_template Demo.alloc
              (map POST [Demo.body "command_loop" JNull 0;
                         Demo.body "onclick" (JObj [("id", JStr "btn1")]) 0]) w1 in
  (_has_loaded_event (self w0) = false ∧ invoked w0 = invoked Demo.world) ∧
  (_has_loaded_event (self w1) = true ∧
   on_load_calls (invoked w1) =
     on_load_calls (invoked Demo.world) ++ [on_load (self Demo.world)]) ∧
  (_has_loaded_event (self w2) = true ∧
   on_load_calls (invoked w2) = on_load_calls (invoked w1)).
Proof.
  apply (load_cycle Demo.run Demo.render_template (fun name p => eq_refl)
           Demo.alloc Demo.world).
Defined.

(** C4, as stated, fails when two POSTs of one cycle are handled
    concurrently: both workers read the cleared flag at line 312 before
    either sets it at line 313, and [on_load] is called twice. *)
Lemma on_load_twice_when_raced :
  let w0 := (Page.on_request Demo.run Demo.render_template Demo.alloc GET Demo.world).2 in
  let poll := Demo.body "command_loop" JNull 0 in
  let '(workers, w') :=
    interleave Demo.run 9000 [0; 1; 0; 0; 1; 1; 0; 1]%nat
               [AtCheck poll; AtCheck poll] w0 in
  _has_loaded_event (self w0) = false ∧
  workers =
    [Done (Ok (Dict (EventLoopResponse.to_json (EventLoopResponse.nothing 9000))));
     Done (Ok (Dict (EventLoopResponse.to_json (EventLoopResponse.nothing 9001))))] ∧
  on_load_calls (invoked w') = [Fn 0; Fn 0]%nat.
Proof. vm_compute. done. Qed.

End PageFacts.

(** ** Schedules around one Postman *)

Module SchedFacts.
Import Sched.

Lemma run_app l1 l2 s : run (l1 ++ l2) s = run l2 (run l1 s).
Proof. revert s. induction l1 as [|a l1 IH]; intros s; simpl; [done | apply IH]. Qed.

Lemma enqueued_snoc tr o :
  enqueued (tr ++ [o]) =
  enqueued tr ++ match o with Enqueued p => [p] | _ => [] end.
Proof. unfold enqueued. rewrite omap_app. by destruct o. Qed.

Lemma delivered_snoc tr o :
  delivered (tr ++ [o]) =
  delivered tr ++ match o with Delivered p => [p] | _ => [] end.
Proof. unfold delivered. rewrite omap_app. by destruct o. Qed.

(** *** First in, first out *)

Lemma balanced_step thread addr s : balanced s → balanced (exec (Step thread addr) s).
Proof.
  unfold balanced. intros Hb. simpl.
  destruct (threads s !! thread) as [l|]; [|done].
  destruct l as [c|r|r|r|r|v]; simpl.
  - destruct (heap s !! addr); simpl; [done|]. by rewrite app_nil_r.
  - destruct (heap s !! r) as [response|]; simpl; [|done].
    rewrite enqueued_snoc, delivered_snoc, Hb, app_nil_r, app_assoc. done.
  - destruct (heap s !! r) as [response|]; simpl; [|done]. by rewrite app_nil_r.
  - destruct (heap s !! r) as [response|]; simpl; [|done].
    destruct (EventLoopResponse.event response); simpl; [|done].
    by rewrite app_nil_r.
  - destruct (heap s !! r) as [response|]; simpl; [|done]. by rewrite app_nil_r.
  - done.
Qed.

Lemma balanced_exec a s :
  is_invalidate a = false → balanced s → balanced (exec a s).
Proof.
  intros Ha Hb. destruct a as [c|thread addr|c addr|addr|m|]; try done.
  - by apply balanced_step.
  - unfold balanced in *. simpl.
    rewrite enqueued_snoc, delivered_snoc, Hb, app_nil_r, app_assoc. done.
  - unfold balanced in *. simpl. unfold Postman.get_new_packet.
    destruct (Postman.outgoing_packet_queue (postman s)) as [|p rest] eqn:Hq; simpl.
    + rewrite enqueued_snoc, delivered_snoc, Hb, Hq. by rewrite !app_nil_r.
    + rewrite enqueued_snoc, delivered_snoc, Hb, app_nil_r, <- app_assoc. done.
  - unfold balanced in *. cbn [exec].
    destruct (Postman.process_message m (heap s) (postman s)); cbn [trace postman];
      [done|].
    rewrite enqueued_snoc, delivered_snoc, Hb. by rewrite !app_nil_r.
Qed.

Lemma drain addrs s :
  length addrs = length (Postman.outgoing_packet_queue (postman s)) →
  delivered (trace (run (map Poll addrs) s)) =
  delivered (trace s) ++ Postman.outgoing_packet_queue (postman s).
Proof.
  revert s. induction addrs as [|addr addrs IH]; intros s Hlen.
  - destruct (Postman.outgoing_packet_queue (postman s)); [|done].
    by rewrite app_nil_r.
  - cbn [map run]. destruct (Postman.outgoing_packet_queue (postman s))
      as [|p rest] eqn:Hq; [done|].
    rewrite IH; simpl; unfold Postman.get_new_packet; rewrite Hq; simpl.
    + rewrite delivered_snoc, <- app_assoc. done.
    + simpl in Hlen. lia.
Qed.

Lemma balanced_run schedule s :
  forallb (fun a => negb (is_invalidate a)) schedule = true →
  balanced s → balanced (run schedule s).
Proof.
  revert s. induction schedule as [|a rest IH]; intros s Hs Hb; [done|].
  simpl in Hs. apply andb_prop in Hs as [Ha Hrest].
  simpl. apply IH; [done|]. apply balanced_exec; [|done].
  by destruct (is_invalidate a).
Qed.

(** C3: along a schedule of [send]s, [send_and_receive]s, poll ticks and
    replies without [invalidate_outgoing_packets], the packets the poll
    ticks took off the queue, followed by the packets still queued, are
    the packets that were enqueued, in enqueue order; and as many
    further poll ticks as packets are queued deliver the rest.  So the
    poll ticks deliver the enqueued packets in order, each once, none
    lost. *)
Theorem fifo schedule s :
  forallb (fun a => negb (is_invalidate a)) schedule = true →
  balanced s →
  let s' := run schedule s in
  enqueued (trace s') =
    delivered (trace s') ++ Postman.outgoing_packet_queue (postman s') ∧
  ∀ addrs,
    length addrs = length (Postman.outgoing_packet_queue (postman s')) →
    delivered (trace (run (map Poll addrs) s')) = enqueued (trace s').
Proof.
  intros Hs Hb s'.
  pose proof (balanced_run schedule s Hs Hb) as Hb'. fold s' in Hb'.
  split; [exact Hb'|].
  intros addrs Hlen. rewrite (drain addrs s' Hlen). symmetry. exact Hb'.
Qed.

Lemma fifo_witness :
  let schedule :=
    [ Spawn (Command.javascript "1+1"); Send (Command.update_interval 50) 1;
      Step 0 512; Poll 600; Step 0 0; Poll 601; Poll 602;
      Send (Command.javascript "2") 2 ]%nat in
  let s' := run schedule Sched.init in
  enqueued (trace s') =
    delivered (trace s') ++ Postman.outgoing_packet_queue (postman s') ∧
  ∀ addrs,
    length addrs = length (Postman.outgoing_packet_queue (postman s')) →
    delivered (trace (run (map Poll addrs) s')) = enqueued (trace s').
Proof.
  apply (fifo [ Spawn (Command.javascript "1+1"); Send (Command.update_interval 50) 1;
                Step 0 512; Poll 600; Step 0 0; Poll 601; Poll 602;
                Send (Command.javascript "2") 2 ]%nat Sched.init);
    reflexivity.
Defined.

(** X23: the poll ticks after a run of [send]s on a new Postman, as
    many ticks as calls, return the serialized commands in the order
    of the calls. *)
Lemma sends_then_polls (calls : list (Command.t * Z)) (addrs : list Z) :
  length addrs = length calls →
  delivered (trace (run (map send_of calls ++ map Poll addrs) Sched.init)) =
  map serialized calls.
Proof.
  intros Hlen. rewrite run_app.
  assert (Hq : ∀ s,
            Postman.outgoing_packet_queue (postman (run (map send_of calls) s)) =
            Postman.outgoing_packet_queue (postman s) ++ map serialized calls ∧
            delivered (trace (run (map send_of calls) s)) = delivered (trace s)).
  { clear. induction calls as [|[c a] calls IH]; intros s; cbn [map run].
    - by rewrite !app_nil_r.
    - destruct (IH (exec (send_of (c, a)) s)) as [-> ->]. cbn.
      rewrite delivered_snoc, app_nil_r, <- !app_assoc. done. }
  destruct (Hq Sched.init) as [Hqueue Hdel]. simpl in Hqueue, Hdel.
  rewrite drain.
  - by rewrite Hqueue, Hdel.
  - rewrite Hqueue. by rewrite length_map.
Qed.

(** *** Ids are addresses *)

Lemma wf_step thread addr s : wf s → wf (exec (Step thread addr) s).
Proof.
  intros [Hw Hh]. cbn [exec].
  destruct (threads s !! thread) as [l|]; [|done].
  destruct l as [c|r|r|r|r|v]; cbn [Postman.step].
  - destruct (heap s !! addr) eqn:Ha; [done|]. split; cbn; [exact Hw|].
    intros r response. rewrite lookup_insert. case_decide.
    + intros [= <-]. by subst.
    + apply Hh.
  - destruct (heap s !! r); [|done]. split; cbn; done.
  - destruct (heap s !! r) as [response|] eqn:Hr; [|done]. split; cbn; [|exact Hh].
    intros k r'. rewrite (Hh _ _ Hr), lookup_insert. case_decide.
    + intros [= <-]. by subst.
    + apply Hw.
  - destruct (heap s !! r) as [response|]; [|done]. cbn.
    by destruct (EventLoopResponse.event response).
  - destruct (heap s !! r); [|done]. split; cbn; done.
  - done.
Qed.

Lemma process_message_spec m h pm h' :
  Postman.process_message m h pm = Ok h' →
  ∃ ref, getitem_int (Postman.in_waiting pm) (EventLoopMessage.id m) = Ok ref ∧
         h' = alter (EventLoopResponse.resolve (EventLoopMessage.payload m)) ref h.
Proof.
  unfold Postman.process_message.
  destruct (getitem_int (Postman.in_waiting pm) (EventLoopMessage.id m)) as [ref|e];
    [|done].
  intros [= <-]. by exists ref.
Qed.

Lemma wf_exec a s : wf s → wf (exec a s).
Proof.
  intros Hwf. destruct a as [c|thread addr|c addr|addr|m|]; try done.
  - by apply wf_step.
  - destruct Hwf as [Hw Hh]. cbn [exec]. unfold Postman.get_new_packet.
    by destruct (Postman.outgoing_packet_queue (postman s)).
  - destruct Hwf as [Hw Hh]. cbn [exec].
    destruct (Postman.process_message m (heap s) (postman s)) as [h'|e] eqn:Hm;
      [|done].
    apply process_message_spec in Hm as (ref & _ & ->).
    split; cbn; [exact Hw|].
    intros r response. rewrite lookup_alter. case_decide; [|apply Hh]. subst.
    destruct (heap s !! r) as [old|] eqn:Hr; [|done].
    intros [= <-]. cbn. by apply Hh.
Qed.

Lemma wf_run schedule s : wf s → wf (run schedule s).
Proof.
  revert s. induction schedule as [|a rest IH]; intros s Hwf; [done|].
  apply IH, wf_exec, Hwf.
Qed.

Lemma wf_init : wf Sched.init.
Proof. split; intros ? ?; cbn; by rewrite lookup_empty. Qed.

(** *** What an action leaves alone *)

Lemma threads_exec a t s :
  (∀ addr, a ≠ Step t addr) → is_Some (threads s !! t) →
  threads (exec a s) !! t = threads s !! t.
Proof.
  intros Ha Ht. destruct a as [c|thread addr|c addr|addr|m|]; try done.
  - cbn. apply lookup_app_l. by apply lookup_lt_is_Some.
  - cbn [exec]. destruct (threads s !! thread) as [l|]; [|done].
    destruct (Postman.step addr l (heap s) (postman s)) as [[[l' h'] pm']|]; [|done].
    cbn. apply list_lookup_insert_ne. intros ->. by apply (Ha addr).
  - cbn [exec]. by destruct (Postman.get_new_packet addr (postman s)).
  - cbn [exec]. by destruct (Postman.process_message m (heap s) (postman s)).
Qed.

Lemma heap_step thread addr r s :
  is_Some (heap s !! r) → heap (exec (Step thread addr) s) !! r = heap s !! r.
Proof.
  intros [response Hr]. cbn [exec].
  destruct (threads s !! thread) as [l|]; [|done].
  destruct l as [c|r'|r'|r'|r'|v]; cbn [Postman.step].
  - destruct (heap s !! addr) eqn:Ha; [done|]. cbn.
    apply lookup_insert_ne. intros ->. congruence.
  - by destruct (heap s !! r').
  - by destruct (heap s !! r').
  - destruct (heap s !! r') as [response'|]; [|done]. cbn.
    by destruct (EventLoopResponse.event response').
  - by destruct (heap s !! r').
  - done.
Qed.

Lemma getitem_int_key (d : gmap Z Z) k ref :
  getitem_int d k = Ok ref →
  ∃ n, d !! n = Some ref ∧ ∀ r, answers r (EventLoopMessage.mk JNull JNull k) = bool_decide (n = r).
Proof.
  unfold getitem_int, answers. destruct k as [|b|n|?|?|?]; try done; cbn.
  - destruct (d !! (if b then 1 else 0)) eqn:Hd; [|done]. intros [= ->]. eauto.
  - destruct (d !! n) eqn:Hd; [|done]. intros [= ->]. eauto.
Qed.

Lemma answers_id r m :
  answers r m = answers r (EventLoopMessage.mk JNull JNull (EventLoopMessage.id m)).
Proof. reflexivity. Qed.

Lemma heap_reply m r s :
  wf s → answers r m = false → heap (exec (Reply m) s) !! r = heap s !! r.
Proof.
  intros [Hw Hh] Ha. cbn [exec].
  destruct (Postman.process_message m (heap s) (postman s)) as [h'|e] eqn:Hm; [|done].
  apply process_message_spec in Hm as (ref & Hk & ->). cbn.
  apply getitem_int_key in Hk as (n & Hn & Hans).
  apply Hw in Hn as ->. rewrite answers_id, Hans in Ha.
  apply bool_decide_eq_false in Ha. by apply lookup_alter_ne.
Qed.

Lemma heap_exec a r s :
  wf s → posted r a = [] → is_Some (heap s !! r) →
  heap (exec a s) !! r = heap s !! r.
Proof.
  intros Hwf Hp Hr. destruct a as [c|thread addr|c addr|addr|m|]; try done.
  - by apply heap_step.
  - cbn [exec]. by destruct (Postman.get_new_packet addr (postman s)).
  - apply heap_reply; [done|]. unfold posted in Hp.
    by destruct (answers r m).
Qed.

Lemma in_waiting_step thread addr s :
  wf s →
  Postman.in_waiting (postman (exec (Step thread addr) s)) = Postman.in_waiting (postman s)
  ∨ ∃ r, threads s !! thread = Some (Postman.AtRegister r) ∧ is_Some (heap s !! r) ∧
         Postman.in_waiting (postman (exec (Step thread addr) s)) =
         <[r := r]> (Postman.in_waiting (postman s)).
Proof.
  intros [Hw Hh]. cbn [exec].
  destruct (threads s !! thread) as [l|]; [|by left].
  destruct l as [c|r|r|r|r|v]; cbn [Postman.step].
  - destruct (heap s !! addr); by left.
  - destruct (heap s !! r); by left.
  - destruct (heap s !! r) as [response|] eqn:Hr; [|by left].
    right. exists r. cbn. rewrite (Hh _ _ Hr). eauto.
  - destruct (heap s !! r) as [response|]; [|by left]. cbn.
    destruct (EventLoopResponse.event response); by left.
  - destruct (heap s !! r); by left.
  - by left.
Qed.

Lemma in_waiting_exec a s :
  (∀ thread addr, a ≠ Step thread addr) →
  Postman.in_waiting (postman (exec a s)) = Postman.in_waiting (postman s).
Proof.
  intros Ha. destruct a as [c|thread addr|c addr|addr|m|]; try done.
  - by destruct (Ha thread addr).
  - cbn [exec]. unfold Postman.get_new_packet.
    by destruct (Postman.outgoing_packet_queue (postman s)).
  - cbn [exec]. by destruct (Postman.process_message m (heap s) (postman s)).
Qed.

(** An entry of [in_waiting] is never removed. *)
Lemma in_waiting_kept a k s :
  wf s → Postman.in_waiting (postman s) !! k = Some k →
  Postman.in_waiting (postman (exec a s)) !! k = Some k.
Proof.
  intros Hwf Hk. destruct a as [c|thread addr|c addr|addr|m|];
    try (rewrite in_waiting_exec; [done | congruence]).
  destruct (in_waiting_step thread addr s Hwf) as [-> | (r & _ & _ & ->)]; [done|].
  rewrite lookup_insert. case_decide; [by subst | done].
Qed.

(** *** The invariant of a call *)

Lemma call_inv_frame t r seen seen' s s' :
  threads s' !! t = threads s !! t →
  heap s' !! r = heap s !! r →
  (Postman.in_waiting (postman s) !! r = Some r →
   Postman.in_waiting (postman s') !! r = Some r) →
  (∀ v, v ∈ seen → v ∈ seen') →
  call_inv t r seen s → call_inv t r seen' s'.
Proof.
  intros Ht Hh Hw Hseen (response & Hr & Hpc).
  exists response. rewrite Hh, Ht. split; [done|].
  destruct (threads s !! t) as [[c|r'|r'|r'|r'|v]|]; try done.
  - destruct Hpc as [-> Hev]. auto.
  - destruct Hpc as [-> Hev]. auto.
  - destruct Hpc as (-> & Hin & Hev). auto.
  - destruct Hpc as (-> & Hin & Hres). auto.
  - destruct Hpc as [Hin Hv]. auto.
Qed.

Lemma call_inv_step t r seen addr s :
  wf s → call_inv t r seen s → call_inv t r seen (exec (Step t addr) s).
Proof.
  intros [Hw Hh] (response & Hr & Hpc).
  destruct (threads s !! t) as [l|] eqn:Ht; [|done].
  assert (Hlt : (t < length (threads s))%nat) by by eapply lookup_lt_Some.
  unfold call_inv. cbn [exec]. rewrite Ht.
  destruct l as [c|r'|r'|r'|r'|v]; try done.
  - destruct Hpc as [-> Hev]. cbn [Postman.step]. rewrite Hr. cbn.
    exists response. by rewrite list_lookup_insert_eq.
  - destruct Hpc as [-> Hev]. cbn [Postman.step]. rewrite Hr. cbn.
    exists response. rewrite list_lookup_insert_eq by done.
    rewrite (Hh _ _ Hr), lookup_insert_eq. done.
  - destruct Hpc as (-> & Hin & Hev). cbn [Postman.step]. rewrite Hr. cbn.
    destruct (EventLoopResponse.event response) eqn:He.
    + cbn. exists response. rewrite list_lookup_insert_eq by done.
      repeat split; try done. by apply Hev.
    + exists response. rewrite Ht. repeat split; try done. congruence.
  - destruct Hpc as (-> & Hin & Hres). cbn [Postman.step]. rewrite Hr. cbn.
    exists response. by rewrite list_lookup_insert_eq.
  - cbn [Postman.step]. exists response. by rewrite Ht.
Qed.

Lemma call_inv_reply t r seen m s :
  wf s → answers r m = true → call_inv t r seen s →
  call_inv t r (seen ++ [EventLoopMessage.payload m]) (exec (Reply m) s).
Proof.
  intros [Hw Hh] Ha Hinv. cbn [exec].
  destruct (Postman.process_message m (heap s) (postman s)) as [h'|e] eqn:Hm.
  - apply process_message_spec in Hm as (ref & Hk & ->).
    apply getitem_int_key in Hk as (n & Hn & Hans).
    apply Hw in Hn as ->. rewrite answers_id, Hans in Ha.
    apply bool_decide_eq_true in Ha as ->.
    destruct Hinv as (response & Hr & Hpc).
    exists (EventLoopResponse.resolve (EventLoopMessage.payload m) response).
    cbn. rewrite lookup_alter_eq, Hr. split; [done|].
    assert (Hnew : EventLoopMessage.payload m ∈ seen ++ [EventLoopMessage.payload m]).
    { apply elem_of_app. right. by apply list_elem_of_singleton. }
    destruct (threads s !! t) as [[c|r'|r'|r'|r'|v]|]; try done; cbn.
    + by destruct Hpc as [-> _].
    + by destruct Hpc as [-> _].
    + by destruct Hpc as (-> & Hin & _).
    + by destruct Hpc as (-> & Hin & _).
    + destruct Hpc as [Hin Hv]. split; [done|]. apply elem_of_app. by left.
  - eapply call_inv_frame; [..|exact Hinv]; try done.
    intros v Hv. apply elem_of_app. by left.
Qed.

Lemma call_inv_other t r seen a s :
  wf s → (∀ addr, a ≠ Step t addr) → posted r a = [] →
  call_inv t r seen s → call_inv t r seen (exec a s).
Proof.
  intros Hwf Hne Hp Hinv.
  eapply call_inv_frame; [..|exact Hinv]; try done.
  - apply threads_exec; [done|].
    destruct Hinv as (response & _ & Hpc). by destruct (threads s !! t).
  - apply heap_exec; [done..|]. destruct Hinv as (response & -> & _). eauto.
  - by apply in_waiting_kept.
Qed.

Lemma call_inv_exec t r seen a s :
  wf s → call_inv t r seen s → call_inv t r (seen ++ posted r a) (exec a s).
Proof.
  intros Hwf Hinv.
  destruct a as [c|thread addr|c addr|addr|m|]; cbn [posted];
    rewrite ?app_nil_r; try (by apply call_inv_other).
  - destruct (decide (thread = t)) as [->|Hne]; [by apply call_inv_step|].
    apply call_inv_other; try done. congruence.
  - destruct (answers r m) eqn:Ha; [by apply call_inv_reply|].
    rewrite app_nil_r. apply call_inv_other; try done. cbn. by rewrite Ha.
Qed.

Lemma call_inv_run t r schedule seen s :
  wf s → call_inv t r seen s →
  call_inv t r (seen ++ (schedule ≫= posted r)) (run schedule s).
Proof.
  revert seen s. induction schedule as [|a rest IH]; intros seen s Hwf Hinv.
  - cbn. by rewrite app_nil_r.
  - cbn [run]. cbn. rewrite app_assoc. apply IH; [by apply wf_exec|].
    by apply call_inv_exec.
Qed.

(** Line 187 establishes the invariant. *)
Lemma call_inv_first t r c s :
  threads s !! t = Some (Postman.AtCall c) → heap s !! r = None →
  call_inv t r [] (exec (Step t r) s).
Proof.
  intros Ht Hr. unfold call_inv. cbn [exec]. rewrite Ht. cbn [Postman.step].
  rewrite Hr. cbn [heap threads postman].
  exists (EventLoopResponse.init c true r). rewrite lookup_insert_eq.
  rewrite list_lookup_insert_eq by by eapply lookup_lt_Some. done.
Qed.

Lemma posted_elem r schedule v :
  v ∈ schedule ≫= posted r →
  ∃ m, Reply m ∈ schedule ∧ answers r m = true ∧ EventLoopMessage.payload m = v.
Proof.
  intros (a & Hv & Ha)%list_elem_of_bind.
  destruct a as [c|thread addr|c addr|addr|m|]; cbn in Hv;
    try (by apply elem_of_nil in Hv).
  destruct (answers r m) eqn:Hm; [|by apply elem_of_nil in Hv].
  apply list_elem_of_singleton in Hv as ->. by exists m.
Qed.

(** *** The lines of [send_and_receive], one at a time *)

Lemma line_187 t r c s :
  wf s → threads s !! t = Some (Postman.AtCall c) → heap s !! r = None →
  at_line t r (Postman.AtPut r) (EventLoopResponse.init c true r) (exec (Step t r) s) ∧
  trace (exec (Step t r) s) = trace s ++ [] ∧
  postman (exec (Step t r) s) = postman s.
Proof.
  intros Hwf Ht Hr. split; [|cbn [exec]; rewrite Ht; cbn [Postman.step]; by rewrite Hr].
  split; [|split]; [| |by apply wf_exec].
  - cbn [exec]. rewrite Ht. cbn [Postman.step]. rewrite Hr. cbn.
    apply list_lookup_insert_eq. by eapply lookup_lt_Some.
  - cbn [exec]. rewrite Ht. cbn [Postman.step]. rewrite Hr. cbn.
    apply lookup_insert_eq.
Qed.

Lemma line_188 t r response addr s :
  at_line t r (Postman.AtPut r) response s →
  at_line t r (Postman.AtRegister r) response (exec (Step t addr) s) ∧
  trace (exec (Step t addr) s) =
    trace s ++ [Enqueued (EventLoopResponse.to_json response)] ∧
  postman (exec (Step t addr) s) =
    Postman.put (EventLoopResponse.to_json response) (postman s).
Proof.
  intros (Ht & Hr & Hwf).
  split; [|cbn [exec]; rewrite Ht; cbn [Postman.step]; rewrite Hr; cbn;
           by rewrite Hr].
  split; [|split]; [| |by apply wf_exec].
  - cbn [exec]. rewrite Ht. cbn [Postman.step]. rewrite Hr. cbn.
    apply list_lookup_insert_eq. by eapply lookup_lt_Some.
  - cbn [exec]. rewrite Ht. cbn [Postman.step]. by rewrite Hr.
Qed.

Lemma line_189 t r response addr s :
  at_line t r (Postman.AtRegister r) response s →
  at_line t r (Postman.AtWait r) response (exec (Step t addr) s) ∧
  Postman.in_waiting (postman (exec (Step t addr) s)) =
    <[r := r]> (Postman.in_waiting (postman s)).
Proof.
  intros (Ht & Hr & Hwf).
  assert (Hid : EventLoopResponse.id response = r) by by apply Hwf.
  split; [|cbn [exec]; rewrite Ht; cbn [Postman.step]; rewrite Hr; cbn;
           by rewrite Hid].
  split; [|split]; [| |by apply wf_exec].
  - cbn [exec]. rewrite Ht. cbn [Postman.step]. rewrite Hr. cbn.
    apply list_lookup_insert_eq. by eapply lookup_lt_Some.
  - cbn [exec]. rewrite Ht. cbn [Postman.step]. by rewrite Hr.
Qed.

(** Line 190, event cleared: the thread has no step. *)
Lemma line_190_blocked t r response addr s :
  at_line t r (Postman.AtWait r) response s →
  EventLoopResponse.event response = false →
  exec (Step t addr) s = s.
Proof.
  intros (Ht & Hr & Hwf) He. cbn [exec]. rewrite Ht. cbn [Postman.step].
  rewrite Hr. cbn. by rewrite He.
Qed.

Lemma line_190 t r response addr s :
  at_line t r (Postman.AtWait r) response s →
  EventLoopResponse.event response = true →
  at_line t r (Postman.AtReturn r) response (exec (Step t addr) s).
Proof.
  intros (Ht & Hr & Hwf) He.
  split; [|split]; [| |by apply wf_exec].
  - cbn [exec]. rewrite Ht. cbn [Postman.step]. rewrite Hr. cbn. rewrite He. cbn.
    apply list_lookup_insert_eq. by eapply lookup_lt_Some.
  - cbn [exec]. rewrite Ht. cbn [Postman.step]. rewrite Hr. cbn. by rewrite He.
Qed.

Lemma line_191 t r response addr s :
  at_line t r (Postman.AtReturn r) response s →
  threads (exec (Step t addr) s) !! t =
    Some (Postman.Returned (EventLoopResponse.result response)).
Proof.
  intros (Ht & Hr & Hwf). cbn [exec]. rewrite Ht. cbn [Postman.step].
  rewrite Hr. cbn. apply list_lookup_insert_eq. by eapply lookup_lt_Some.
Qed.

Lemma answers_getitem {V} r m (d : gmap Z V) :
  answers r m = true →
  getitem_int d (EventLoopMessage.id m) =
    match d !! r with Some v => Ok v | None => Raise KeyError end.
Proof.
  unfold answers, getitem_int.
  destruct (EventLoopMessage.id m) as [|b|n|?|?|?]; try done;
    intros ->%bool_decide_eq_true; done.
Qed.

(** A reply that carries the id of a registered response resolves it. *)
Lemma reply_resolves t r l response m s :
  at_line t r l response s →
  Postman.in_waiting (postman s) !! r = Some r →
  answers r m = true →
  at_line t r l (EventLoopResponse.resolve (EventLoopMessage.payload m) response)
          (exec (Reply m) s) ∧
  Postman.in_waiting (postman (exec (Reply m) s)) !! r = Some r.
Proof.
  intros (Ht & Hr & Hwf) Hin Ha.
  split; [|by apply in_waiting_kept].
  split; [|split]; [| |by apply wf_exec].
  - rewrite threads_exec; [done..|]. by rewrite Ht.
  - cbn [exec]. unfold Postman.process_message.
    rewrite (answers_getitem r m _ Ha), Hin. cbn.
    by rewrite lookup_alter_eq, Hr.
Qed.

Lemma quiet_spec t r a :
  quiet t r a = true → (∀ addr, a ≠ Step t addr) ∧ posted r a = [].
Proof.
  destruct a as [c|thread addr|c addr|addr|m|]; cbn; try done.
  - intros Hq. split; [|done]. intros addr' [= -> _].
    by rewrite Nat.eqb_refl in Hq.
  - intros Hq. split; [done|]. by destruct (answers r m).
Qed.

Lemma trace_exec a s : ∃ new, trace (exec a s) = trace s ++ new.
Proof.
  destruct a as [c|thread addr|c addr|addr|m|]; cbn [exec].
  - exists []. cbn. by rewrite app_nil_r.
  - destruct (threads s !! thread) as [l|]; [|exists []; by rewrite app_nil_r].
    destruct (Postman.step addr l (heap s) (postman s)) as [[[l' h'] pm']|];
      [|exists []; by rewrite app_nil_r].
    by eexists.
  - by eexists.
  - destruct (Postman.get_new_packet addr (postman s)). by eexists.
  - destruct (Postman.process_message m (heap s) (postman s));
      [exists []; cbn; by rewrite app_nil_r | by eexists].
  - exists []. cbn. by rewrite app_nil_r.
Qed.

(** Actions that are quiet for the call leave it where it stands. *)
Lemma quiet_run t r l response env s :
  forallb (quiet t r) env = true →
  at_line t r l response s →
  at_line t r l response (run env s) ∧
  (Postman.in_waiting (postman s) !! r = Some r →
   Postman.in_waiting (postman (run env s)) !! r = Some r) ∧
  (∀ o, o ∈ trace s → o ∈ trace (run env s)).
Proof.
  revert s. induction env as [|a env IH]; intros s Hq Hat; [done|].
  cbn in Hq. apply andb_prop in Hq as [Ha Henv].
  apply quiet_spec in Ha as [Hne Hp].
  destruct Hat as (Ht & Hr & Hwf).
  assert (Hat' : at_line t r l response (exec a s)).
  { split; [|split]; [| |by apply wf_exec].
    - rewrite threads_exec; [done..|]. by rewrite Ht.
    - rewrite heap_exec; [done..|]. by rewrite Hr. }
  destruct (IH _ Henv Hat') as (Hat'' & Hin & Htr).
  cbn [run]. split; [done|]. split.
  - intros Hk. by apply Hin, in_waiting_kept.
  - intros o Ho. apply Htr. destruct (trace_exec a s) as [new ->].
    apply elem_of_app. by left.
Qed.

Lemma run_cons a l s : run (a :: l) s = run l (exec a s).
Proof. reflexivity. Qed.

(** What holds of [send_and_receive(c)] when no reply for it is handled
    before line 189 has run.  The response of the call is built at
    address [r], so [r] is the id of the exchange.
    (1) Whatever else happens, if the call has returned [v] then a reply
    that carries the id [r] was processed with payload [v]; replies with
    other ids never make it return.
    (2) The call enqueues the packet of the exchange and then waits:
    while no reply carries [r] the thread has no step, however the other
    threads, poll ticks and replies with other ids are interleaved; the
    reply that carries [r], handled after line 189, releases it, and
    what it returns is the payload of that reply. *)
Theorem send_and_receive_correlated s t c r :
  wf s → threads s !! t = Some (Postman.AtCall c) → heap s !! r = None →
  (∀ post v,
     threads (run (Step t r :: post) s) !! t = Some (Postman.Returned v) →
     ∃ m, Reply m ∈ post ∧ answers r m = true ∧ EventLoopMessage.payload m = v) ∧
  (∀ e1 a1 e2 a2 e3 m e4 a3 e5 a4,
     forallb (quiet t r) (e1 ++ e2 ++ e3 ++ e4 ++ e5) = true →
     answers r m = true →
     let waiting := run (Step t r :: e1 ++ Step t a1 :: e2 ++ Step t a2 :: e3) s in
     let resolved := run (Reply m :: e4 ++ Step t a3 :: e5 ++ [Step t a4]) waiting in
     Enqueued (EventLoopResponse.to_json (EventLoopResponse.init c true r))
       ∈ trace waiting ∧
     threads waiting !! t = Some (Postman.AtWait r) ∧
     (∀ addr, exec (Step t addr) waiting = waiting) ∧
     threads resolved !! t = Some (Postman.Returned (EventLoopMessage.payload m))).
Proof.
  intros Hwf Ht Hr. split.
  - intros post v Hret. rewrite run_cons in Hret.
    pose proof (call_inv_first t r c s Ht Hr) as Hinv.
    apply (call_inv_run t r post) in Hinv; [|by apply wf_exec].
    destruct Hinv as (response & _ & Hpc). rewrite Hret in Hpc.
    destruct Hpc as [_ Hv]. by apply posted_elem.
  - intros e1 a1 e2 a2 e3 m e4 a3 e5 a4 Hq Ha waiting resolved.
    rewrite !forallb_app in Hq.
    destruct (andb_prop _ _ Hq) as [Hq1 Hq']. clear Hq.
    destruct (andb_prop _ _ Hq') as [Hq2 Hq'']. clear Hq'.
    destruct (andb_prop _ _ Hq'') as [Hq3 Hq''']. clear Hq''.
    destruct (andb_prop _ _ Hq''') as [Hq4 Hq5]. clear Hq'''.
    set (resp := EventLoopResponse.init c true r).
    destruct (line_187 t r c s Hwf Ht Hr) as (H1 & _ & _).
    destruct (quiet_run t r _ _ e1 _ Hq1 H1) as (H1' & _ & _).
    destruct (line_188 t r resp a1 _ H1') as (H2 & Htr & _).
    destruct (quiet_run t r _ _ e2 _ Hq2 H2) as (H2' & _ & Htr2).
    destruct (line_189 t r resp a2 _ H2') as (H3 & Hin).
    destruct (quiet_run t r _ _ e3 _ Hq3 H3) as (H3' & Hin3 & Htr3).
    assert (Hw : waiting =
              run e3 (exec (Step t a2) (run e2 (exec (Step t a1)
                (run e1 (exec (Step t r) s)))))).
    { subst waiting. by rewrite run_cons, run_app, run_cons, run_app, run_cons. }
    rewrite <- Hw in H3', Hin3, Htr3.
    assert (Hreg : Postman.in_waiting (postman waiting) !! r = Some r).
    { apply Hin3. rewrite Hin. apply lookup_insert_eq. }
    split; [|split; [|split]].
    + apply Htr3. destruct (trace_exec (Step t a2) (run e2 (exec (Step t a1)
                (run e1 (exec (Step t r) s))))) as [new ->].
      apply elem_of_app. left. apply Htr2. rewrite Htr.
      apply elem_of_app. right. by apply list_elem_of_singleton.
    + apply H3'.
    + intros addr. by apply (line_190_blocked t r resp).
    + destruct (reply_resolves t r _ _ m _ H3' Hreg Ha) as (H4 & _).
      destruct (quiet_run t r _ _ e4 _ Hq4 H4) as (H4' & _ & _).
      pose proof (line_190 t r _ a3 _ H4' eq_refl) as H5.
      destruct (quiet_run t r _ _ e5 _ Hq5 H5) as (H5' & _ & _).
      pose proof (line_191 t r _ a4 _ H5') as H6.
      subst resolved. by rewrite run_cons, run_app, run_cons, run_app.
Qed.

Lemma send_and_receive_correlated_witness :
  let s := run [Spawn (Command.javascript "1+1")] Sched.init in
  (∀ post v,
     threads (run (Step 0 512 :: post) s) !! 0%nat = Some (Postman.Returned v) →
     ∃ m, Reply m ∈ post ∧ answers 512 m = true ∧ EventLoopMessage.payload m = v) ∧
  (∀ e1 a1 e2 a2 e3 m e4 a3 e5 a4,
     forallb (quiet 0 512) (e1 ++ e2 ++ e3 ++ e4 ++ e5) = true →
     answers 512 m = true →
     let waiting := run (Step 0 512 :: e1 ++ Step 0 a1 :: e2 ++ Step 0 a2 :: e3) s in
     let resolved := run (Reply m :: e4 ++ Step 0 a3 :: e5 ++ [Step 0 a4]) waiting in
     Enqueued (EventLoopResponse.to_json
                 (EventLoopResponse.init (Command.javascript "1+1") true 512))
       ∈ trace waiting ∧
     threads waiting !! 0%nat = Some (Postman.AtWait 512) ∧
     (∀ addr, exec (Step 0 addr) waiting = waiting) ∧
     threads resolved !! 0%nat = Some (Postman.Returned (EventLoopMessage.payload m))).
Proof.
  apply (send_and_receive_correlated
           (run [Spawn (Command.javascript "1+1")] Sched.init) 0
           (Command.javascript "1+1") 512).
  - apply wf_run, wf_init.
  - reflexivity.
  - reflexivity.
Defined.

(** Scenario A: the packet of the call is polled, the page posts the
    reply with the same id and payload 2, and the call returns 2. *)
Lemma scenario_a_returns :
  let s := run scenario_a (run [Spawn (Command.javascript "1+1")] Sched.init) in
  threads s !! 0%nat = Some (Postman.Returned (JNum 2)) ∧
  trace s =
    [ Enqueued (Packet.mk "javascript" 512 true (JStr "1+1"));
      Delivered (Packet.mk "javascript" 512 true (JStr "1+1")) ].
Proof. split; reflexivity. Qed.

(** *** The pending map *)

Lemma solo_exec t r seen a k s :
  wf s → call_inv t r seen s → solo t a = true → k ≠ r →
  Postman.in_waiting (postman (exec a s)) !! k = Postman.in_waiting (postman s) !! k.
Proof.
  intros Hwf (response & _ & Hpc) Hsolo Hk.
  destruct a as [c|thread addr|c addr|addr|m|];
    try (rewrite in_waiting_exec; [done | congruence]).
  cbn in Hsolo. apply Nat.eqb_eq in Hsolo as ->.
  destruct (in_waiting_step t addr s Hwf) as [-> | (r' & Ht & _ & ->)]; [done|].
  rewrite Ht in Hpc. destruct Hpc as [-> _]. by apply lookup_insert_ne.
Qed.

Lemma solo_run t r schedule seen k s :
  wf s → call_inv t r seen s → forallb (solo t) schedule = true → k ≠ r →
  Postman.in_waiting (postman (run schedule s)) !! k =
  Postman.in_waiting (postman s) !! k.
Proof.
  revert seen s. induction schedule as [|a rest IH]; intros seen s Hwf Hinv Hs Hk;
    [done|].
  cbn in Hs. apply andb_prop in Hs as [Ha Hrest]. cbn [run].
  rewrite (IH (seen ++ posted r a)); [| by apply wf_exec | by apply call_inv_exec
                                      | done | done].
  by eapply solo_exec.
Qed.

(** C8, as the code has it: when [send_and_receive] has returned, the
    entry it added to [in_waiting] is still there (nothing in the code
    removes an entry); and if no other thread ran in between, every
    other entry of [in_waiting] is as it was before the call. *)
Theorem pending_entry_kept s t c r post v :
  wf s → threads s !! t = Some (Postman.AtCall c) → heap s !! r = None →
  threads (run (Step t r :: post) s) !! t = Some (Postman.Returned v) →
  Postman.in_waiting (postman (run (Step t r :: post) s)) !! r = Some r ∧
  (forallb (solo t) post = true →
   ∀ k, k ≠ r →
     Postman.in_waiting (postman (run (Step t r :: post) s)) !! k =
     Postman.in_waiting (postman s) !! k).
Proof.
  intros Hwf Ht Hr Hret. rewrite run_cons in *.
  pose proof (call_inv_first t r c s Ht Hr) as Hinv.
  assert (Hwf' : wf (exec (Step t r) s)) by by apply wf_exec.
  split.
  - apply (call_inv_run t r post) in Hinv; [|done].
    destruct Hinv as (response & _ & Hpc). rewrite Hret in Hpc. apply Hpc.
  - intros Hsolo k Hk. rewrite (solo_run t r post [] k); [|done..].
    destruct (line_187 t r c s Hwf Ht Hr) as (_ & _ & ->). done.
Qed.

Lemma pending_entry_kept_witness :
  let s := run [Spawn (Command.javascript "1+1")] Sched.init in
  Postman.in_waiting (postman (run scenario_a s)) !! 512 = Some 512 ∧
  (forallb (solo 0) (tail scenario_a) = true →
   ∀ k, k ≠ 512 →
     Postman.in_waiting (postman (run scenario_a s)) !! k =
     Postman.in_waiting (postman s) !! k).
Proof.
  apply (pending_entry_kept (run [Spawn (Command.javascript "1+1")] Sched.init)
           0 (Command.javascript "1+1") 512 (tail scenario_a) (JNum 2)).
  - apply wf_run, wf_init.
  - reflexivity.
  - reflexivity.
  - reflexivity.
Defined.

(** C8, as stated, fails: after the call of scenario A has returned,
    its id is still a key of [in_waiting]. *)
Lemma pending_entry_not_removed :
  let s := run scenario_a (run [Spawn (Command.javascript "1+1")] Sched.init) in
  threads s !! 0%nat = Some (Postman.Returned (JNum 2)) ∧
  Postman.in_waiting (postman s) !! 512 = Some 512 ∧
  ¬ (Postman.in_waiting (postman s) !! 512 = None).
Proof. split; [reflexivity|]. split; [reflexivity|]. discriminate. Qed.

(** *** The order of lines 188 and 189 *)

(** After line 188 the packet is on the queue while [in_waiting] is
    still as it was before the call: the id is registered one line
    later. *)
Lemma enqueued_before_registered t r c a1 s :
  wf s → threads s !! t = Some (Postman.AtCall c) → heap s !! r = None →
  let s2 := run [Step t r; Step t a1] s in
  threads s2 !! t = Some (Postman.AtRegister r) ∧
  Postman.outgoing_packet_queue (postman s2) =
    Postman.outgoing_packet_queue (postman s) ++
    [EventLoopResponse.to_json (EventLoopResponse.init c true r)] ∧
  Postman.in_waiting (postman s2) = Postman.in_waiting (postman s).
Proof.
  intros Hwf Ht Hr s2.
  destruct (line_187 t r c s Hwf Ht Hr) as (H1 & _ & Hpm1).
  destruct (line_188 t r _ a1 _ H1) as (H2 & _ & Hpm2).
  subst s2. cbn [run]. split; [apply H2|]. rewrite Hpm2, Hpm1. done.
Qed.

(** C5 on the code: in the schedule [race] the poll tick takes the
    packet of the call off the queue before line 189 has run; the reply
    with the id of the call then finds no entry in [in_waiting] and its
    handler raises [KeyError]; the call registers its response
    afterwards and waits on an event that stays cleared. *)
Theorem registered_after_enqueued :
  let before_poll := run (take 3 race) Sched.init in
  let s := run race Sched.init in
  Postman.outgoing_packet_queue (postman before_poll) =
    [Packet.mk "javascript" 512 true (JStr "1+1")] ∧
  Postman.in_waiting (postman before_poll) !! 512 = None ∧
  trace s =
    [ Enqueued (Packet.mk "javascript" 512 true (JStr "1+1"));
      Delivered (Packet.mk "javascript" 512 true (JStr "1+1"));
      Failed KeyError ] ∧
  threads s !! 0%nat = Some (Postman.AtWait 512) ∧
  EventLoopResponse.event <$> heap s !! 512 = Some false ∧
  ∀ addr, exec (Step 0 addr) s = s.
Proof.
  repeat split; try reflexivity.
Qed.

(** *** A reply handled between lines 188 and 189 *)

Lemma polls_quiet t r polls : forallb (quiet t r) (map Poll polls) = true.
Proof. by induction polls. Qed.

Lemma polls_in_waiting polls s :
  Postman.in_waiting (postman (run (map Poll polls) s)) =
  Postman.in_waiting (postman s).
Proof.
  revert s. induction polls as [|addr polls IH]; intros s; [done|].
  cbn [map run]. rewrite IH. by apply in_waiting_exec.
Qed.

(** A reply that carries an id with no entry in [in_waiting] raises
    [KeyError] and changes nothing. *)
Lemma reply_unregistered r m s :
  answers r m = true → Postman.in_waiting (postman s) !! r = None →
  exec (Reply m) s =
    {| heap := heap s; postman := postman s; threads := threads s;
       trace := trace s ++ [Failed KeyError] |}.
Proof.
  intros Ha Hin. cbn [exec]. unfold Postman.process_message.
  by rewrite (answers_getitem r m _ Ha), Hin.
Qed.

(** A call whose event is cleared stays before line 191 as long as no
    reply carries its id. *)
Lemma unresolved_run t r response post s :
  Forall (fun a => posted r a = []) post →
  threads s !! t = Some (Postman.AtRegister r) ∨
  threads s !! t = Some (Postman.AtWait r) →
  heap s !! r = Some response → EventLoopResponse.event response = false →
  wf s →
  (threads (run post s) !! t = Some (Postman.AtRegister r) ∨
   threads (run post s) !! t = Some (Postman.AtWait r)) ∧
  heap (run post s) !! r = Some response ∧ wf (run post s).
Proof.
  intros Hpost. revert s.
  induction Hpost as [|a post Ha Hpost IH]; intros s Ht Hr He Hwf; [done|].
  cbn [run]. apply IH; [| |done|by apply wf_exec].
  - destruct a as [c|thread addr|c addr|addr|m|];
      try (rewrite threads_exec; [done | done | destruct Ht as [-> | ->]; eauto]).
    destruct (decide (thread = t)) as [->|Hne].
    + destruct Ht as [Ht|Ht].
      * right. by apply (line_189 t r response addr s).
      * right. by rewrite (line_190_blocked t r response addr s).
    + rewrite threads_exec; [done| |destruct Ht as [-> | ->]; eauto].
      intros addr' [= ? _]. done.
  - rewrite heap_exec; [done..|]. by rewrite Hr.
Qed.

(** C1 on the code: a thread calls [send_and_receive(c)], its response
    is built at address [r], and line 188 puts the packet on the queue.
    Poll ticks follow, and the reply that carries the id [r] is handled
    before line 189 has run: its handler raises [KeyError] and the
    reply is dropped.  Whatever happens afterwards, as long as no
    second reply carries [r], the call has not returned: it stands at
    line 189 or waits at line 190 without a step.  The reply with the
    id of the exchange has arrived and the call never returns its
    payload. *)
Theorem reply_before_register_lost s t c r a1 polls m post :
  wf s → threads s !! t = Some (Postman.AtCall c) → heap s !! r = None →
  Postman.in_waiting (postman s) !! r = None →
  answers r m = true →
  Forall (fun a => posted r a = []) post →
  let enqueued := run (Step t r :: Step t a1 :: map Poll polls) s in
  let lost := exec (Reply m) enqueued in
  let final := run post lost in
  Enqueued (EventLoopResponse.to_json (EventLoopResponse.init c true r))
    ∈ trace enqueued ∧
  lost = {| heap := heap enqueued; postman := postman enqueued;
            threads := threads enqueued;
            trace := trace enqueued ++ [Failed KeyError] |} ∧
  (threads final !! t = Some (Postman.AtRegister r) ∨
   threads final !! t = Some (Postman.AtWait r)) ∧
  (∀ v, threads final !! t ≠ Some (Postman.Returned v)) ∧
  (threads final !! t = Some (Postman.AtWait r) →
   ∀ addr, exec (Step t addr) final = final).
Proof.
  intros Hwf Ht Hr Hin Ha Hpost enqueued lost final.
  set (resp := EventLoopResponse.init c true r).
  destruct (line_187 t r c s Hwf Ht Hr) as (H1 & _ & Hpm1).
  destruct (line_188 t r resp a1 _ H1) as (H2 & Htr & Hpm2).
  destruct (quiet_run t r _ _ (map Poll polls) _ (polls_quiet t r polls) H2)
    as (H2' & _ & Htr2).
  change (run (map Poll polls) (exec (Step t a1) (exec (Step t r) s)))
    with enqueued in H2', Htr2.
  assert (Hnone : Postman.in_waiting (postman enqueued) !! r = None).
  { subst enqueued. cbn [run]. by rewrite polls_in_waiting, Hpm2, Hpm1. }
  assert (Hlost : lost = {| heap := heap enqueued; postman := postman enqueued;
                            threads := threads enqueued;
                            trace := trace enqueued ++ [Failed KeyError] |})
    by by apply (reply_unregistered r).
  destruct H2' as (Ht2 & Hr2 & Hwf2).
  destruct (unresolved_run t r resp post lost Hpost) as (Hpc & Hheap & Hwf');
    [rewrite Hlost; by left | by rewrite Hlost | done
    | by apply wf_exec |].
  fold final in Hpc, Hheap, Hwf'.
  split; [|split; [done|split; [done|split]]].
  - apply Htr2. rewrite Htr. apply elem_of_app. right.
    by apply list_elem_of_singleton.
  - intros v Hv. destruct Hpc as [Hpc|Hpc]; congruence.
  - intros Hw addr. by apply (line_190_blocked t r resp).
Qed.

(** The schedule [race], and what follows it. *)
Lemma reply_before_register_lost_witness :
  let s := run [Spawn (Command.javascript "1+1")] Sched.init in
  let m := EventLoopMessage.mk (JStr "result") (JNum 2) (JNum 512) in
  let enqueued := run (Step 0 512 :: Step 0 0 :: map Poll [600]) s in
  let lost := exec (Reply m) enqueued in
  let final := run [Step 0 0; Step 0 0; Poll 601; Step 0 0] lost in
  Enqueued (EventLoopResponse.to_json
              (EventLoopResponse.init (Command.javascript "1+1") true 512))
    ∈ trace enqueued ∧
  lost = {| heap := heap enqueued; postman := postman enqueued;
            threads := threads enqueued;
            trace := trace enqueued ++ [Failed KeyError] |} ∧
  (threads final !! 0%nat = Some (Postman.AtRegister 512) ∨
   threads final !! 0%nat = Some (Postman.AtWait 512)) ∧
  (∀ v, threads final !! 0%nat ≠ Some (Postman.Returned v)) ∧
  (threads final !! 0%nat = Some (Postman.AtWait 512) →
   ∀ addr, exec (Step 0 addr) final = final).
Proof.
  apply (reply_before_register_lost
           (run [Spawn (Command.javascript "1+1")] Sched.init) 0
           (Command.javascript "1+1") 512 0 [600]
           (EventLoopMessage.mk (JStr "result") (JNum 2) (JNum 512))
           [Step 0 0; Step 0 0; Poll 601; Step 0 0]).
  - apply wf_run, wf_init.
  - reflexivity.
  - reflexivity.
  - reflexivity.
  - reflexivity.
  - repeat constructor.
Defined.

End SchedFacts.

(** ** Python strings *)

Module StringFacts.

Lemma str_app_cons c s1 s2 : String c s1 +:+ s2 = String c (s1 +:+ s2).
Proof. reflexivity. Qed.

Lemma str_app_nil s : EmptyString +:+ s = s.
Proof. reflexivity. Qed.

Lemma str_app_assoc s1 s2 s3 : (s1 +:+ s2) +:+ s3 = s1 +:+ s2 +:+ s3.
Proof.
  induction s1 as [|c s1 IH]; [done|].
  by rewrite !str_app_cons, IH.
Qed.

Lemma str_contains_app c s1 s2 :
  str_contains c (s1 +:+ s2) = str_contains c s1 || str_contains c s2.
Proof.
  induction s1 as [|c' s1 IH]; [done|].
  rewrite str_app_cons. cbn [str_contains]. rewrite IH. by rewrite orb_assoc.
Qed.

Lemma str_replace_app old new s1 s2 :
  str_replace old new (s1 +:+ s2) = str_replace old new s1 +:+ str_replace old new s2.
Proof.
  induction s1 as [|c s1 IH]; [done|].
  rewrite str_app_cons. cbn [str_replace].
  destruct (Ascii.eqb c old); rewrite IH; [|done].
  by rewrite str_app_assoc.
Qed.

(** What [replace] returns holds no [old], unless [new] brings it. *)
Lemma str_replace_clean old new s :
  str_contains old new = false →
  str_contains old (str_replace old new s) = false.
Proof.
  intros Hnew. induction s as [|c s IH]; [done|].
  cbn [str_replace]. destruct (Ascii.eqb c old) eqn:Hc.
  - by rewrite str_contains_app, Hnew, IH.
  - cbn [str_contains]. by rewrite Hc, IH.
Qed.

(** [replace] returns a string without [old] as it is. *)
Lemma str_replace_id old new s :
  str_contains old s = false → str_replace old new s = s.
Proof.
  induction s as [|c s IH]; [done|].
  cbn [str_contains str_replace].
  intros [Hc Hs]%orb_false_elim. rewrite Hc. by rewrite IH.
Qed.

Lemma str_replace_join old new (items : list string) :
  Forall (fun x => str_contains old x = false) items →
  str_replace old new (str_join (String old EmptyString) items) = str_join new items.
Proof.
  induction 1 as [|x rest Hx Hrest IH]; [done|].
  cbn [str_join]. destruct rest as [|y rest]; [by apply str_replace_id|].
  rewrite !str_replace_app, IH, (str_replace_id _ _ x Hx).
  cbn [str_replace]. rewrite Ascii.eqb_refl.
  by rewrite (str_app_assoc new EmptyString), str_app_nil.
Qed.

End StringFacts.

(** ** The setters of a page *)

Module SetterFacts.
Import Page.

(** The packet of a script that is sent without waiting. *)
Local Abbreviation script addr js :=
  {| Packet.topic := "javascript"; Packet.id := addr;
     Packet.should_respond := false; Packet.payload := JStr js |}.

(** X1: [set_text] and [set_button_text] enqueue one script whose text
    part holds no newline, whatever [text] is: every newline of [text]
    became [<br />]; a [text] without newline is sent as it is. *)
Theorem set_text_escapes tag_id text addr p :
  let body := str_replace newline "<br />" text in
  Postman.outgoing_packet_queue (_postman (set_text tag_id text addr p)) =
    Postman.outgoing_packet_queue (_postman p) ++
    [script addr (element tag_id +:+ ".innerHTML = " +:+ dquote +:+ body +:+ dquote +:+ ";")] ∧
  Postman.outgoing_packet_queue (_postman (set_button_text tag_id text addr p)) =
    Postman.outgoing_packet_queue (_postman p) ++
    [script addr (element tag_id +:+ ".value = " +:+ dquote +:+ body +:+ dquote +:+ ";")] ∧
  str_contains newline body = false ∧
  (str_contains newline text = false → body = text).
Proof.
  intros body. split; [done|]. split; [done|]. split.
  - by apply StringFacts.str_replace_clean.
  - apply StringFacts.str_replace_id.
Qed.

(** X2: lines without newline, joined by newlines as [main.py] does
    and passed to [set_text], reach the page joined by [<br />]. *)
Theorem set_text_joined tag_id (lines : list string) addr p :
  Forall (fun x => str_contains newline x = false) lines →
  Postman.outgoing_packet_queue
    (_postman (set_text tag_id (str_join (String newline EmptyString) lines) addr p)) =
  Postman.outgoing_packet_queue (_postman p) ++
  [script addr (element tag_id +:+ ".innerHTML = " +:+ dquote +:+
                str_join "<br />" lines +:+ dquote +:+ ";")].
Proof.
  intros Hlines. unfold set_text.
  by rewrite (StringFacts.str_replace_join newline "<br />" lines Hlines).
Qed.

Lemma set_text_joined_witness :
  Postman.outgoing_packet_queue
    (_postman (set_text "r01_data"
                 (str_join (String newline EmptyString) ["M_R01_S: 1"; "M_R01_L: 2"])
                 7 Demo.page)) =
  Postman.outgoing_packet_queue (_postman Demo.page) ++
  [script 7 (element "r01_data" +:+ ".innerHTML = " +:+ dquote +:+
             str_join "<br />" ["M_R01_S: 1"; "M_R01_L: 2"] +:+ dquote +:+ ";")].
Proof.
  apply (set_text_joined "r01_data" ["M_R01_S: 1"; "M_R01_L: 2"] 7 Demo.page).
  repeat constructor.
Defined.

Lemma perform_is_script c addr p :
  ∃ js, Serving.perform c addr p = evaluate_javascript js addr p.
Proof. destruct c; eexists; reflexivity. Qed.

Lemma perform_fold alloc (calls : list (nat * Serving.Setter)) p :
  let p' := foldl (fun p '(i, c) => Serving.perform c (alloc i) p) p calls in
  (∃ packets,
     Postman.outgoing_packet_queue (_postman p') =
       Postman.outgoing_packet_queue (_postman p) ++ packets ∧
     length packets = length calls ∧
     Forall (fun packet => Packet.topic packet = "javascript" ∧
                           Packet.should_respond packet = false) packets) ∧
  Postman.in_waiting (_postman p') = Postman.in_waiting (_postman p) ∧
  _has_loaded_event p' = _has_loaded_event p ∧
  _update_interval p' = _update_interval p ∧
  _callbacks p' = _callbacks p ∧
  on_load p' = on_load p.
Proof.
  revert p. induction calls as [|[i c] calls IH]; intros p.
  - repeat split; try done. exists []. by rewrite app_nil_r.
  - cbn [foldl]. destruct (perform_is_script c (alloc i) p) as [js ->].
    destruct (IH (evaluate_javascript js (alloc i) p))
      as ((packets & Hq & Hlen & Hall) & Hin & Hl & Hi & Hc & Ho).
    split; [|done].
    exists (script (alloc i) js :: packets). split; [|split].
    + cbn in Hq. cbn. rewrite Hq, <- app_assoc. done.
    + cbn. by rewrite Hlen.
    + by constructor.
Qed.

(** X3: any run of [set_text], [set_button_text], [console_log],
    [set_image_src], [set_image_base64] and
    [evaluate_javascript(js, get_output=False)] calls appends one packet
    per call to the queue, each a [javascript] packet that asks for no
    reply, and leaves the pending map, the load flag, the interval, the
    callbacks and [on_load] as they were. *)
Theorem setters_only_enqueue alloc calls p :
  let p' := Serving.perform_all alloc calls p in
  (∃ packets,
     Postman.outgoing_packet_queue (_postman p') =
       Postman.outgoing_packet_queue (_postman p) ++ packets ∧
     length packets = length calls ∧
     Forall (fun packet => Packet.topic packet = "javascript" ∧
                           Packet.should_respond packet = false) packets) ∧
  Postman.in_waiting (_postman p') = Postman.in_waiting (_postman p) ∧
  _has_loaded_event p' = _has_loaded_event p ∧
  _update_interval p' = _update_interval p ∧
  _callbacks p' = _callbacks p ∧
  on_load p' = on_load p.
Proof.
  intros p'. subst p'. unfold Serving.perform_all.
  destruct (perform_fold alloc (zip (seq 0 (length calls)) calls) p)
    as ((packets & Hq & Hlen & Hall) & Hrest).
  split; [|exact Hrest].
  exists packets. split; [done|]. split; [|done].
  rewrite Hlen, length_zip, length_seq. lia.
Qed.

End SetterFacts.

(** ** More on the request handler *)

Module HandlerFacts.
Import Page.

Local Abbreviation interval_packet addr n :=
  {| Packet.topic := "update_interval"; Packet.id := addr;
     Packet.should_respond := false; Packet.payload := JNum n |}.

Lemma set_intervals_fold alloc (l : list (nat * Z)) p :
  let p' := foldl (fun p '(i, n) => set_update_interval n (alloc i) p) p l in
  update_interval p' = default (update_interval p) (last (l.*2)) ∧
  Postman.outgoing_packet_queue (_postman p') =
    Postman.outgoing_packet_queue (_postman p) ++
    ((fun x => interval_packet (alloc x.1) x.2) <$> l) ∧
  Postman.in_waiting (_postman p') = Postman.in_waiting (_postman p) ∧
  _has_loaded_event p' = _has_loaded_event p ∧
  _callbacks p' = _callbacks p ∧
  on_load p' = on_load p.
Proof.
  revert p. induction l as [|[i n] l IH]; intros p.
  - repeat split; try done. cbn. by rewrite app_nil_r.
  - cbn [foldl].
    destruct (IH (set_update_interval n (alloc i) p)) as (Hi & Hq & Hrest).
    split; [|split; [|exact Hrest]].
    + rewrite Hi. cbn [fmap list_fmap snd]. rewrite last_cons.
      by destruct (last (l.*2)).
    + rewrite Hq. cbn. by rewrite <- app_assoc.
Qed.

(** X4: after [page.update_interval = n] for each [n] of a list, the
    getter returns the last one (the old value if the list is empty);
    the queue got one [update_interval] packet per assignment, in order,
    also for a value that did not change; nothing else of the page
    changed. *)
Theorem update_interval_sequence alloc (ns : list Z) p :
  let p' := Serving.set_intervals alloc ns p in
  update_interval p' = default (update_interval p) (last ns) ∧
  (∃ packets,
     Postman.outgoing_packet_queue (_postman p') =
       Postman.outgoing_packet_queue (_postman p) ++ packets ∧
     length packets = length ns ∧
     ∀ i n, ns !! i = Some n → packets !! i = Some (interval_packet (alloc i) n)) ∧
  Postman.in_waiting (_postman p') = Postman.in_waiting (_postman p) ∧
  _has_loaded_event p' = _has_loaded_event p ∧
  _callbacks p' = _callbacks p ∧
  on_load p' = on_load p.
Proof.
  intros p'. subst p'. unfold Serving.set_intervals.
  destruct (set_intervals_fold alloc (zip (seq 0 (length ns)) ns) p)
    as (Hi & Hq & Hrest).
  rewrite snd_zip in Hi by (rewrite length_seq; lia).
  split; [exact Hi|]. split; [|exact Hrest].
  eexists. split; [exact Hq|]. split.
  - rewrite length_fmap, length_zip, length_seq. lia.
  - intros i n Hn. rewrite list_lookup_fmap, lookup_zip_with.
    rewrite lookup_seq_lt by by eapply lookup_lt_Some.
    cbn. by rewrite Hn.
Qed.

Section Handler.
Variable run : nat → Page.t → Page.t.
Variable render_template : string → list (string * string) → string.

Local Abbreviation on_request := (Page.on_request run render_template).
Local Abbreviation check_loaded := (Page.check_loaded run).
Local Abbreviation serve := (Page.serve run render_template).
Local Abbreviation responses := (Serving.responses run render_template).

(** X5: a POST whose body is not a JSON object with the keys [topic],
    [payload] and [id] raises, [TypeError] when the body is no object
    and [KeyError] when a key is missing; the load check has run before:
    an unloaded page is marked loaded and [on_load] was called. *)
Theorem malformed_post alloc w json :
  (∀ fields, json = JObj fields →
     obj_lookup "topic" fields = None ∨ obj_lookup "payload" fields = None ∨
     obj_lookup "id" fields = None) →
  ∃ e, on_request alloc (POST json) w = (Raise e, check_loaded w) ∧
       (e = TypeError ↔ ∀ fields, json ≠ JObj fields) ∧
       (e = KeyError ↔ ∃ fields, json = JObj fields) ∧
       on_load_calls (invoked (check_loaded w)) =
         on_load_calls (invoked w) ++
         (if _has_loaded_event (self w) then [] else [on_load (self w)]).
Proof.
  intros Hbad.
  assert (Hcalls : on_load_calls (invoked (check_loaded w)) =
            on_load_calls (invoked w) ++
            (if _has_loaded_event (self w) then [] else [on_load (self w)])).
  { unfold Page.check_loaded. destruct (_has_loaded_event (self w)).
    - by rewrite app_nil_r.
    - unfold on_load_calls. cbn. by rewrite omap_app. }
  assert (Hinit : ∃ e, EventLoopMessage.init json = Raise e ∧
            (e = TypeError ↔ ∀ fields, json ≠ JObj fields) ∧
            (e = KeyError ↔ ∃ fields, json = JObj fields)).
  { destruct json as [|b|n|s|items|fields];
      try (exists TypeError; split; [done|]; split; [done|];
           split; [done | by intros [? ?]]).
    exists KeyError. split.
    - unfold EventLoopMessage.init. cbn.
      destruct (Hbad fields eq_refl) as [H|[H|H]].
      + by rewrite H.
      + destruct (obj_lookup "topic" fields); cbn; [|done]. by rewrite H.
      + destruct (obj_lookup "topic" fields); cbn; [|done].
        destruct (obj_lookup "payload" fields); cbn; [|done]. by rewrite H.
    - split.
      + split; [done|]. intros H. by destruct (H fields).
      + split; [by eauto | done]. }
  destruct Hinit as (e & Hinit & Hty & Hkey).
  exists e. split; [|done].
  cbn. unfold Page.dispatch. by rewrite Hinit.
Qed.

Lemma poll_step alloc payload id w :
  _has_loaded_event (self w) = true →
  on_request alloc (POST (Serving.poll_body payload id)) w =
  (Ok (Dict (Postman.get_new_packet (alloc 0%nat) (_postman (self w))).1),
   with_self (with_postman
                (Postman.get_new_packet (alloc 0%nat) (_postman (self w))).2
                (self w)) w).
Proof.
  intros Hl. cbn. unfold Page.check_loaded. rewrite Hl.
  unfold Page.dispatch. cbn.
  by destruct (Postman.get_new_packet (alloc 0%nat) (_postman (self w))).
Qed.

Lemma polls_drain_aux alloc (polls : list (Json * Json)) w :
  _has_loaded_event (self w) = true →
  responses alloc ((fun b => POST (Serving.poll_body b.1 b.2)) <$> polls) w =
    ((fun p => Ok (Dict p)) <$>
       take (length polls) (Postman.outgoing_packet_queue (_postman (self w)))) ++
    replicate (length polls - length (Postman.outgoing_packet_queue (_postman (self w))))
              (Ok (noop (alloc 0%nat))) ∧
  serve alloc ((fun b => POST (Serving.poll_body b.1 b.2)) <$> polls) w =
    with_self (with_postman
                 {| Postman.outgoing_packet_queue :=
                      drop (length polls)
                           (Postman.outgoing_packet_queue (_postman (self w)));
                    Postman.in_waiting := Postman.in_waiting (_postman (self w)) |}
                 (self w)) w.
Proof.
  revert w. induction polls as [|[payload id] polls IH]; intros w Hl.
  - cbn. split; [done|]. destruct w as [[? ? ? ? ? [? ?] ?] ? ?]. done.
  - cbn [fmap list_fmap length Serving.responses Page.serve fst snd].
    rewrite (poll_step alloc payload id w Hl). cbn [fst snd].
    set (w' := with_self _ w).
    assert (Hl' : _has_loaded_event (self w') = true) by exact Hl.
    destruct (IH w' Hl') as [Hr Hs].
    rewrite Hr, Hs. subst w'. unfold Postman.get_new_packet.
    destruct (Postman.outgoing_packet_queue (_postman (self w))) as [|p q] eqn:Hq.
    + cbn. rewrite Hq. cbn. rewrite !Nat.sub_0_r, drop_nil, take_nil. done.
    + cbn. done.
Qed.

(** X6: poll ticks on a loaded page never raise: as long as packets are
    queued each tick returns the oldest one and takes it off the queue,
    after that every tick returns the no-op packet; nothing but the
    queue changes. *)
Theorem polls_drain alloc (polls : list (Json * Json)) w :
  _has_loaded_event (self w) = true →
  let requests := (fun b => POST (Serving.poll_body b.1 b.2)) <$> polls in
  let queue := Postman.outgoing_packet_queue (_postman (self w)) in
  let k := length polls in
  responses alloc requests w =
    ((fun p => Ok (Dict p)) <$> take k queue) ++
    replicate (k - length queue) (Ok (noop (alloc 0%nat))) ∧
  serve alloc requests w =
    with_self (with_postman
                 {| Postman.outgoing_packet_queue := drop k queue;
                    Postman.in_waiting := Postman.in_waiting (_postman (self w)) |}
                 (self w)) w.
Proof. intros Hl requests queue k. by apply polls_drain_aux. Qed.

(** X7: on a loaded page, after [on_button_click(tag_id, f)] a click
    posted for [tag_id] calls [f] once and nothing else, whatever was
    registered for [tag_id] before; the callbacks of the other tags are
    as they were. *)
Theorem registered_callback_called alloc w json payload id tag_id f :
  _has_loaded_event (self w) = true →
  EventLoopMessage.init json =
    Ok (EventLoopMessage.mk (JStr "onclick") payload id) →
  getitem payload "id" = Ok (JStr tag_id) →
  let w0 := with_self (on_button_click tag_id f (self w)) w in
  on_request alloc (POST json) w0 =
    (Ok (noop (alloc 0%nat)), invoke run (CallbackCall tag_id f) f w0) ∧
  invoked (on_request alloc (POST json) w0).2 = invoked w ++ [CallbackCall tag_id f] ∧
  ∀ other, other ≠ tag_id →
    _callbacks (self w0) !! other = _callbacks (self w) !! other.
Proof.
  intros Hl Hmsg Hid w0.
  assert (Hreq : on_request alloc (POST json) w0 =
            (Ok (noop (alloc 0%nat)), invoke run (CallbackCall tag_id f) f w0)).
  { cbn. unfold Page.check_loaded. cbn. rewrite Hl.
    unfold Page.dispatch. rewrite Hmsg. cbn. rewrite Hid.
    unfold onclick. cbn. by rewrite lookup_insert_eq. }
  split; [exact Hreq|]. split; [by rewrite Hreq|].
  intros other Hne. cbn. by apply lookup_insert_ne.
Qed.

(** X8: a click whose payload is no object raises [TypeError]; without
    an [id] it raises [KeyError]; with a list or a dict as [id] it
    raises [TypeError]; with [None], a boolean or a number as [id] no
    callback is called and the no-op packet is returned.  In all these
    cases the page is as the load check left it. *)
Theorem onclick_odd_payloads alloc w json payload id :
  EventLoopMessage.init json =
    Ok (EventLoopMessage.mk (JStr "onclick") payload id) →
  let answer := on_request alloc (POST json) w in
  match payload with
  | JObj fields =>
      match obj_lookup "id" fields with
      | None => answer = (Raise KeyError, check_loaded w)
      | Some (JList _) | Some (JObj _) => answer = (Raise TypeError, check_loaded w)
      | Some (JStr _) => True
      | Some JNull | Some (JBool _) | Some (JNum _) =>
          answer = (Ok (noop (alloc 0%nat)), check_loaded w)
      end
  | _ => answer = (Raise TypeError, check_loaded w)
  end.
Proof.
  intros Hmsg answer. subst answer. cbn. unfold Page.dispatch. rewrite Hmsg. cbn.
  destruct payload as [|b|n|s|items|fields]; try done.
  cbn. destruct (obj_lookup "id" fields) as [[|b|n|s|items|fields']|]; done.
Qed.

End Handler.

Lemma malformed_post_witness :
  ∃ e, Page.on_request Demo.run Demo.render_template Demo.alloc
         (POST (JObj [("topic", JStr "command_loop")])) Demo.world =
       (Raise e, Page.check_loaded Demo.run Demo.world) ∧
       (e = TypeError ↔ ∀ fields, JObj [("topic", JStr "command_loop")] ≠ JObj fields) ∧
       (e = KeyError ↔ ∃ fields, JObj [("topic", JStr "command_loop")] = JObj fields) ∧
       on_load_calls (invoked (Page.check_loaded Demo.run Demo.world)) =
         on_load_calls (invoked Demo.world) ++
         (if _has_loaded_event (self Demo.world) then [] else [on_load (self Demo.world)]).
Proof.
  apply (malformed_post Demo.run Demo.render_template Demo.alloc Demo.world
           (JObj [("topic", JStr "command_loop")])).
  intros fields [= <-]. right. left. reflexivity.
Defined.

Lemma polls_drain_witness :
  let polls := [(JNull, JNum 0); (JNull, JNum 0); (JNull, JNum 0)] in
  Serving.responses Demo.run Demo.render_template Demo.alloc
    ((fun b => POST (Serving.poll_body b.1 b.2)) <$> polls) Sample.loaded =
  [Ok (Dict Sample.packet1); Ok (Dict Sample.packet2); Ok (noop 9000)].
Proof.
  exact (proj1 (polls_drain Demo.run Demo.render_template Demo.alloc
                  [(JNull, JNum 0); (JNull, JNum 0); (JNull, JNum 0)]
                  Sample.loaded eq_refl)).
Defined.

Lemma registered_callback_called_witness :
  let w0 := with_self (on_button_click "btn1" (Fn 7) (self Sample.loaded)) Sample.loaded in
  invoked (Page.on_request Demo.run Demo.render_template Demo.alloc
             (POST (Sample.click_on "btn1")) w0).2 =
  invoked Sample.loaded ++ [CallbackCall "btn1" (Fn 7)].
Proof.
  exact (proj1 (proj2
    (registered_callback_called Demo.run Demo.render_template Demo.alloc
       Sample.loaded (Sample.click_on "btn1") (JObj [("id", JStr "btn1")]) (JNum 0)
       "btn1" (Fn 7) eq_refl eq_refl eq_refl))).
Defined.

Lemma onclick_odd_payloads_witness :
  Page.on_request Demo.run Demo.render_template Demo.alloc
    (POST (Demo.body "onclick" (JObj [("id", JList [])]) 0)) Sample.loaded =
  (Raise TypeError, Page.check_loaded Demo.run Sample.loaded).
Proof.
  exact (onclick_odd_payloads Demo.run Demo.render_template Demo.alloc Sample.loaded
           (Demo.body "onclick" (JObj [("id", JList [])]) 0)
           (JObj [("id", JList [])]) (JNum 0) eq_refl).
Defined.

End HandlerFacts.

(** ** The registry of pages *)

Module EdgeFacts.
Import EdgeInterface.

Lemma lookup_store_eq path page pages : lookup path (store path page pages) = Some page.
Proof.
  induction pages as [|[path' page'] pages IH]; cbn.
  - by rewrite String.eqb_refl.
  - destruct (String.eqb path' path) eqn:He; cbn; rewrite He; [done | exact IH].
Qed.

Lemma lookup_store_ne path other page pages :
  other ≠ path → lookup other (store path page pages) = lookup other pages.
Proof.
  intros Hne. induction pages as [|[path' page'] pages IH]; cbn.
  - destruct (String.eqb path other) eqn:He; [|done].
    apply String.eqb_eq in He. congruence.
  - destruct (String.eqb path' path) eqn:He; cbn.
    + apply String.eqb_eq in He as ->.
      destruct (String.eqb path other) eqn:He'; [|done].
      apply String.eqb_eq in He'. congruence.
    + by rewrite IH.
Qed.

Lemma store_fresh path page pages :
  lookup path pages = None → store path page pages = pages ++ [(path, page)].
Proof.
  induction pages as [|[path' page'] pages IH]; cbn; [done|].
  destruct (String.eqb path' path); [done|]. intros H. by rewrite IH.
Qed.

Lemma store_paths path page pages :
  is_Some (lookup path pages) → (store path page pages).*1 = pages.*1.
Proof.
  induction pages as [|[path' page'] pages IH]; cbn; [by intros [? ?]|].
  destruct (String.eqb path' path); [done|]. intros H. cbn. by rewrite IH.
Qed.

Lemma lookup_paths path pages : is_Some (lookup path pages) ↔ path ∈ pages.*1.
Proof.
  induction pages as [|[path' page'] pages IH]; cbn.
  - split; [by intros [? ?] | by intros ?%elem_of_nil].
  - destruct (String.eqb path' path) eqn:He.
    + apply String.eqb_eq in He as ->. split; [intros _; left | eauto].
    + apply String.eqb_neq in He. rewrite IH, elem_of_cons.
      split; [by right|]. by intros [?|?].
Qed.

Section Flask.
Variable add_url_rule : string → option string.

Local Abbreviation add_page := (EdgeInterface.add_page add_url_rule).
Local Abbreviation add_pages := (EdgeInterface.add_pages add_url_rule).

Lemma add_page_paths path template kwargs i i' :
  add_page path template kwargs i = Success i' →
  (path ∉ (pages i).*1) ∧ add_url_rule path = None ∧
  (pages i').*1 = ((pages i).*1) ++ [path] ∧ server i' = server i.
Proof.
  unfold EdgeInterface.add_page. destruct (lookup path (pages i)) eqn:Hl; [done|].
  destruct (add_url_rule path) eqn:Hrule; [done|].
  intros [= <-]. cbn. split; [|split; [done|split; [|done]]].
  - rewrite <- lookup_paths, Hl. by intros [? ?].
  - rewrite store_fresh by done. by rewrite fmap_app.
Qed.

Lemma add_page_failure path template kwargs i e :
  add_page path template kwargs i = Failure e →
  path ∈ (pages i).*1 ∨ is_Some (add_url_rule path).
Proof.
  unfold EdgeInterface.add_page. destruct (lookup path (pages i)) eqn:Hl.
  - intros _. left. apply lookup_paths. eauto.
  - destruct (add_url_rule path); [eauto | done].
Qed.

Lemma add_pages_inv calls i :
  NoDup (pages i).*1 →
  NoDup (pages (add_pages calls i)).*1 ∧
  (∀ path, path ∈ (pages (add_pages calls i)).*1 ↔
           path ∈ (pages i).*1 ∨ (path ∈ calls.*1 ∧ add_url_rule path = None)) ∧
  server (add_pages calls i) = server i.
Proof.
  revert i. induction calls as [|[path template] calls IH]; intros i Hnd.
  - split; [done|]. split; [|done]. intros path. cbn. rewrite elem_of_nil. tauto.
  - unfold EdgeInterface.add_pages. cbn [foldl]. fold (add_pages calls).
    destruct (EdgeInterface.add_page add_url_rule path template [] i)
      as [i'|e] eqn:Ha.
    + destruct (add_page_paths _ _ _ _ _ Ha) as (Hfresh & Hrule & Hpaths & Hs).
      destruct (IH i') as (Hnd' & Hin & Hsrv).
      { rewrite Hpaths. apply NoDup_app. split; [done|]. split.
        - intros x Hx ->%list_elem_of_singleton. done.
        - apply NoDup_singleton. }
      fold (add_pages calls i'). split; [done|]. split; [|congruence].
      intros q. rewrite Hin, Hpaths, elem_of_app, list_elem_of_singleton.
      cbn. rewrite elem_of_cons. split.
      * intros [[?| ->]|[? ?]]; [by left | by right; split; [left|] | right; eauto].
      * intros [?|[[->|?] ?]]; [by left; left | by left; right | right; eauto].
    + destruct (IH i Hnd) as (Hnd' & Hin & Hsrv).
      split; [done|]. split; [|done].
      intros q. rewrite Hin. cbn. rewrite elem_of_cons.
      split; [intros [?|[? ?]]; [by left | right; eauto]|].
      intros [?|[[->|?] Hq]]; [by left | | right; eauto].
      apply add_page_failure in Ha as [?|[x Hx]]; [by left | congruence].
Qed.

Hypothesis refuses : refuses_relative add_url_rule.

(** X9: [add_page] raises [PageAlreadyExists] exactly when the path is
    registered, before Flask is asked; for a path that is not
    registered and that Flask refuses it raises what Flask raised,
    which is [ValueError] for a path without a leading slash; in both
    cases there is no new registry.  Otherwise the path is bound, after
    the pages there were, to a new page (not loaded, empty queue,
    interval 100, no callbacks) and every other path is bound as
    before. *)
Theorem add_page_spec path template kwargs i :
  (add_page path template kwargs i = Failure PageAlreadyExists ↔
   is_Some (lookup path (pages i))) ∧
  (lookup path (pages i) = None → leading_slash path = false →
   add_page path template kwargs i = Failure (Raised "ValueError")) ∧
  match lookup path (pages i), add_url_rule path with
  | Some _, _ => add_page path template kwargs i = Failure PageAlreadyExists
  | None, Some exception =>
      add_page path template kwargs i = Failure (Raised exception)
  | None, None =>
      leading_slash path = true ∧
      ∃ i', add_page path template kwargs i = Success i' ∧
            lookup path (pages i') = Some (Page.init template kwargs) ∧
            (∀ other, other ≠ path → lookup other (pages i') = lookup other (pages i)) ∧
            (pages i').*1 = ((pages i).*1) ++ [path] ∧
            server i' = server i
  end.
Proof.
  unfold EdgeInterface.add_page. split; [|split].
  - destruct (lookup path (pages i)) eqn:Hl; [by eauto|].
    split; [|by intros [? ?]]. by destruct (add_url_rule path).
  - intros -> Hs. by rewrite (refuses path Hs).
  - destruct (lookup path (pages i)) eqn:Hl; [done|].
    destruct (add_url_rule path) eqn:Hrule; [done|]. split.
    { destruct (leading_slash path) eqn:Hs; [done|].
      rewrite (refuses path Hs) in Hrule. done. }
    eexists. split; [done|]. cbn. split; [apply lookup_store_eq|].
    split; [intros other Hne; by apply lookup_store_ne|].
    split; [|done]. rewrite store_fresh by done. by rewrite fmap_app.
Qed.

(** X10: whatever [add_page] calls were made on a new interface, those
    that raised included, no path is bound twice, the bound paths are
    exactly the paths of the calls that Flask takes as a rule, and
    every one of them starts with a slash. *)
Theorem add_pages_distinct calls :
  NoDup (pages (add_pages calls EdgeInterface.init)).*1 ∧
  (∀ path, is_Some (lookup path (pages (add_pages calls EdgeInterface.init))) ↔
           path ∈ calls.*1 ∧ add_url_rule path = None) ∧
  (∀ path, is_Some (lookup path (pages (add_pages calls EdgeInterface.init))) →
           leading_slash path = true).
Proof.
  destruct (add_pages_inv calls EdgeInterface.init) as (Hnd & Hin & _).
  { cbn. apply NoDup_nil_2. }
  assert (Hiff : ∀ path,
            is_Some (lookup path (pages (add_pages calls EdgeInterface.init))) ↔
            path ∈ calls.*1 ∧ add_url_rule path = None).
  { intros path. rewrite lookup_paths, Hin. cbn. rewrite elem_of_nil. tauto. }
  split; [done|]. split; [done|].
  intros path [_ Hrule]%Hiff.
  destruct (leading_slash path) eqn:Hs; [done|].
  rewrite (refuses path Hs) in Hrule. done.
Qed.

End Flask.

Lemma sample_refuses : refuses_relative Sample.add_url_rule.
Proof. intros rule Hs. unfold Sample.add_url_rule. by rewrite Hs. Qed.

Lemma add_page_spec_witness :
  (EdgeInterface.add_page Sample.add_url_rule "page" "page.html" []
     EdgeInterface.init = Failure PageAlreadyExists ↔
   is_Some (lookup "page" (pages EdgeInterface.init))) ∧
  (lookup "page" (pages EdgeInterface.init) = None →
   leading_slash "page" = false →
   EdgeInterface.add_page Sample.add_url_rule "page" "page.html" []
     EdgeInterface.init = Failure (Raised "ValueError")) ∧
  EdgeInterface.add_page Sample.add_url_rule "page" "page.html" []
    EdgeInterface.init = Failure (Raised "ValueError").
Proof.
  exact (add_page_spec Sample.add_url_rule sample_refuses "page" "page.html" []
           EdgeInterface.init).
Defined.

Lemma add_pages_distinct_witness :
  let calls := [("/", "index.html"); ("page", "page.html"); ("/", "other.html");
                ("/about", "about.html")] in
  let i := EdgeInterface.add_pages Sample.add_url_rule calls EdgeInterface.init in
  NoDup (pages i).*1 ∧
  (∀ path, is_Some (lookup path (pages i)) ↔
           path ∈ calls.*1 ∧ Sample.add_url_rule path = None) ∧
  (∀ path, is_Some (lookup path (pages i)) → leading_slash path = true).
Proof.
  exact (add_pages_distinct Sample.add_url_rule sample_refuses
           [("/", "index.html"); ("page", "page.html"); ("/", "other.html");
            ("/about", "about.html")]).
Defined.

Lemma lookup_imap n path page (pages : list (string * Page.t)) :
  ∀ alloc : nat → Z,
  lookup path pages = Some page →
  ∃ i, (i < length pages)%nat ∧
       lookup path (imap (fun i '(path, page) =>
                            (path, Page.set_update_interval n (alloc i) page)) pages)
       = Some (Page.set_update_interval n (alloc i) page).
Proof.
  induction pages as [|[path' page'] pages IH]; intros alloc; cbn; [done|].
  destruct (String.eqb path' path) eqn:He.
  - intros [= ->]. exists 0%nat. split; [lia | done].
  - intros Hl. destruct (IH (alloc ∘ S) Hl) as (i & Hi & Hlook).
    exists (S i). split; [lia | exact Hlook].
Qed.

Lemma paths_imap n (pages : list (string * Page.t)) :
  ∀ alloc : nat → Z,
  (imap (fun i '(path, page) =>
           (path, Page.set_update_interval n (alloc i) page)) pages).*1 = pages.*1.
Proof.
  induction pages as [|[path' page'] pages IH]; intros alloc; cbn; [done|].
  f_equal. apply (IH (alloc ∘ S)).
Qed.

(** X11: [set_global_update_interval(n)] binds the same paths in the
    same order, and on every page the interval is [n] and the queue got
    one [update_interval] packet with payload [n] at its end. *)
Theorem set_global_update_interval_spec alloc n i :
  let i' := set_global_update_interval alloc n i in
  (pages i').*1 = (pages i).*1 ∧
  server i' = server i ∧
  ∀ path page,
    lookup path (pages i) = Some page →
    ∃ k page',
      lookup path (pages i') = Some page' ∧
      Page.update_interval page' = n ∧
      Postman.outgoing_packet_queue (Page._postman page') =
        Postman.outgoing_packet_queue (Page._postman page) ++
        [ {| Packet.topic := "update_interval"; Packet.id := alloc k;
             Packet.should_respond := false; Packet.payload := JNum n |} ] ∧
      Page._has_loaded_event page' = Page._has_loaded_event page ∧
      Page._callbacks page' = Page._callbacks page.
Proof.
  intros i'. subst i'. cbn. split; [apply paths_imap|]. split; [done|].
  intros path page Hl.
  destruct (lookup_imap n path page (pages i) alloc Hl) as (k & _ & Hk).
  exists k. eexists. split; [exact Hk|]. done.
Qed.

Section Listener.
Variable run : nat → Page.t → Page.t.
Variable render_template : string → list (string * string) → string.
Hypothesis run_keeps_flag :
  ∀ name p, Page._has_loaded_event (run name p) = Page._has_loaded_event p.

Local Abbreviation route := (EdgeInterface.route run render_template).


End Listener.


End EdgeFacts.

(** ** More on schedules *)

Module SchedMore.
Import Sched.

(** Every waiting response asks for a reply, every entry of
    [in_waiting] refers to a waiting response, and every queued packet
    that asks for a reply is the packet of a waiting response. *)
Local Abbreviation tidy s :=
  ((∀ r response, heap s !! r = Some response →
      EventLoopResponse.should_respond response = true) ∧
   (∀ k r, Postman.in_waiting (postman s) !! k = Some r → is_Some (heap s !! r)) ∧
   (∀ p, p ∈ Postman.outgoing_packet_queue (postman s) →
      Packet.should_respond p = true →
      ∃ response, heap s !! Packet.id p = Some response ∧
                  EventLoopResponse.to_json response = p)).

Lemma tidy_step thread addr s :
  wf s → tidy s → tidy (exec (Step thread addr) s).
Proof.
  intros [Hw Hh] (Hsr & Hlive & Hq). cbn [exec].
  destruct (threads s !! thread) as [l|]; [|done].
  destruct l as [c|r|r|r|r|v]; cbn [Postman.step].
  - destruct (heap s !! addr) eqn:Ha; [done|]. cbn. split; [|split].
    + intros r response. rewrite lookup_insert. case_decide; [|apply Hsr].
      by intros [= <-].
    + intros k r Hk. rewrite lookup_insert_is_Some'. right. by eapply Hlive.
    + intros p Hp Hs. destruct (Hq p Hp Hs) as (response & Hr & Hj).
      exists response. split; [|done]. rewrite lookup_insert_ne; [done|].
      intros ->. congruence.
  - destruct (heap s !! r) as [response|] eqn:Hr; [|done]. cbn.
    split; [done|]. split; [done|].
    intros p [Hp| ->%list_elem_of_singleton]%elem_of_app Hs; [by apply Hq|].
    exists response. cbn. by rewrite (Hh _ _ Hr).
  - destruct (heap s !! r) as [response|] eqn:Hr; [|done]. cbn.
    split; [done|]. split; [|done].
    intros k r'. rewrite lookup_insert. case_decide; [|apply Hlive].
    intros [= <-]. eauto.
  - destruct (heap s !! r) as [response|]; [|done]. cbn.
    by destruct (EventLoopResponse.event response).
  - by destruct (heap s !! r).
  - done.
Qed.

Lemma tidy_exec a s : wf s → tidy s → tidy (exec a s).
Proof.
  intros Hwf Ht. destruct a as [c|thread addr|c addr|addr|m|].
  - done.
  - by apply tidy_step.
  - destruct Ht as (Hsr & Hlive & Hq). cbn. split; [done|]. split; [done|].
    intros p [Hp| ->%list_elem_of_singleton]%elem_of_app Hs; [by apply Hq | done].
  - destruct Ht as (Hsr & Hlive & Hq). cbn [exec]. unfold Postman.get_new_packet.
    destruct (Postman.outgoing_packet_queue (postman s)) as [|p q] eqn:Hqueue; cbn.
    + split; [done|]. split; [done|]. by rewrite Hqueue.
    + split; [done|]. split; [done|]. intros p' Hp'. apply Hq. by right.
  - destruct Ht as (Hsr & Hlive & Hq). cbn [exec].
    destruct (Postman.process_message m (heap s) (postman s)) as [h'|e] eqn:Hm;
      [|done].
    apply SchedFacts.process_message_spec in Hm as (ref & _ & ->). cbn.
    split; [|split].
    + intros r response. rewrite lookup_alter. case_decide; [|apply Hsr]. subst.
      destruct (heap s !! r) as [old|] eqn:Hr; [|done].
      intros [= <-]. cbn. by eapply Hsr.
    + intros k r Hk. rewrite lookup_alter. case_decide; [|by eapply Hlive]. subst.
      destruct (Hlive _ _ Hk) as [old ->]. by eexists.
    + intros p Hp Hs. destruct (Hq p Hp Hs) as (response & Hr & Hj).
      rewrite lookup_alter. case_decide; [|eauto]. subst. rewrite Hr. cbn.
      eexists. split; [done|]. by destruct response.
  - destruct Ht as (Hsr & Hlive & Hq). cbn. split; [done|]. split; [done|].
    by intros p ?%elem_of_nil.
Qed.

(** X13: in every state the threads, sends, poll ticks, replies and
    reloads can reach from a new Postman: every key of the pending map
    is the id of the response it refers to, that response exists and
    asks for a reply; and every queued packet that asks for a reply is
    the serialized form of an existing response with the packet's id. *)
Theorem reachable_tidy schedule :
  let s := run schedule Sched.init in
  (∀ k r, Postman.in_waiting (postman s) !! k = Some r →
     r = k ∧ ∃ response, heap s !! r = Some response ∧
                         EventLoopResponse.id response = k ∧
                         EventLoopResponse.should_respond response = true) ∧
  (∀ p, p ∈ Postman.outgoing_packet_queue (postman s) →
     Packet.should_respond p = true →
     ∃ response, heap s !! Packet.id p = Some response ∧
                 EventLoopResponse.to_json response = p).
Proof.
  intros s.
  assert (H : wf s ∧ tidy s).
  { subst s. generalize SchedFacts.wf_init.
    assert (Hi : tidy Sched.init).
    { split; [|split].
      - intros r response. cbn. by rewrite lookup_empty.
      - intros k r. cbn. by rewrite lookup_empty.
      - intros p Hp. by apply elem_of_nil in Hp. }
    revert Hi. generalize Sched.init.
    induction schedule as [|a rest IH]; intros s0 Ht Hwf; [done|].
    cbn [run]. apply IH; [by apply tidy_exec | by apply SchedFacts.wf_exec]. }
  destruct H as ([Hw Hh] & Hsr & Hlive & Hq). split; [|exact Hq].
  intros k r Hk. pose proof (Hw _ _ Hk) as ->. split; [done|].
  destruct (Hlive _ _ Hk) as [response Hr].
  exists response. split; [done|]. split; [by apply Hh | by eapply Hsr].
Qed.

(** X14: a second reply with the id of a waiting call overwrites the
    result of the first: the call returns the payload of the last reply
    processed before line 191, whether it came before or after the
    thread woke up at line 190. *)
Theorem last_reply_wins t r response m1 m2 a1 a2 s :
  at_line t r (Postman.AtWait r) response s →
  Postman.in_waiting (postman s) !! r = Some r →
  answers r m1 = true → answers r m2 = true →
  threads (run [Reply m1; Reply m2; Step t a1; Step t a2] s) !! t =
    Some (Postman.Returned (EventLoopMessage.payload m2)) ∧
  threads (run [Reply m1; Step t a1; Reply m2; Step t a2] s) !! t =
    Some (Postman.Returned (EventLoopMessage.payload m2)).
Proof.
  intros Hat Hin Ha1 Ha2.
  destruct (SchedFacts.reply_resolves t r _ _ m1 s Hat Hin Ha1) as [H1 Hin1].
  split.
  - destruct (SchedFacts.reply_resolves t r _ _ m2 _ H1 Hin1 Ha2) as [H2 _].
    pose proof (SchedFacts.line_190 t r _ a1 _ H2 eq_refl) as H3.
    exact (SchedFacts.line_191 t r _ a2 _ H3).
  - pose proof (SchedFacts.line_190 t r _ a1 _ H1 eq_refl) as H2.
    assert (Hin2 : Postman.in_waiting
                     (postman (exec (Step t a1) (exec (Reply m1) s))) !! r = Some r).
    { apply SchedFacts.in_waiting_kept; [apply H1 | done]. }
    destruct (SchedFacts.reply_resolves t r _ _ m2 _ H2 Hin2 Ha2) as [H3 _].
    exact (SchedFacts.line_191 t r _ a2 _ H3).
Qed.

(** X15: a reload does not cancel a waiting call and does not release
    it: after [invalidate_outgoing_packets] the queue is empty, the
    call still has no step, its entry of the pending map is kept, and
    the reply with its id still makes it return the payload. *)
Theorem reload_keeps_call_waiting t r response m a1 a2 s :
  at_line t r (Postman.AtWait r) response s →
  EventLoopResponse.event response = false →
  Postman.in_waiting (postman s) !! r = Some r →
  answers r m = true →
  let s' := exec Invalidate s in
  Postman.outgoing_packet_queue (postman s') = [] ∧
  Postman.in_waiting (postman s') = Postman.in_waiting (postman s) ∧
  (∀ addr, exec (Step t addr) s' = s') ∧
  threads (run [Reply m; Step t a1; Step t a2] s') !! t =
    Some (Postman.Returned (EventLoopMessage.payload m)).
Proof.
  intros Hat He Hin Ha s'.
  assert (Hat' : at_line t r (Postman.AtWait r) response s').
  { destruct Hat as (Ht & Hr & Hwf). split; [done|]. split; [done|].
    by apply SchedFacts.wf_exec. }
  split; [done|]. split; [done|]. split.
  - intros addr. by apply (SchedFacts.line_190_blocked t r response).
  - destruct (SchedFacts.reply_resolves t r _ _ m s' Hat' Hin Ha) as [H1 _].
    pose proof (SchedFacts.line_190 t r _ a1 _ H1 eq_refl) as H2.
    exact (SchedFacts.line_191 t r _ a2 _ H2).
Qed.

(** X16: [get_input_data(tag_id)] enqueues the script that reads the
    value of the tag in a packet that asks for a reply and carries the
    id of its response.  Whatever the schedule, if the call has
    returned [v] then a reply that carries that id was handled with
    payload [v].  When the reply that carries that id is handled after
    line 189 has registered the response, the call returns the payload
    of that reply, however the other threads, sends, poll ticks,
    reloads and replies with other ids are interleaved.  (A reply
    handled between lines 188 and 189 is lost.) *)
Theorem get_input_data_returns tag_id t r a s :
  wf s → threads s !! t = Some (Page.get_input_data tag_id) → heap s !! r = None →
  Postman.outgoing_packet_queue (postman (run [Step t r; Step t a] s)) =
    Postman.outgoing_packet_queue (postman s) ++
    [ {| Packet.topic := "javascript"; Packet.id := r;
         Packet.should_respond := true;
         Packet.payload := JStr (Page.element tag_id +:+ ".value;") |} ] ∧
  (∀ post v,
     threads (run (Step t r :: post) s) !! t = Some (Postman.Returned v) →
     ∃ m, Reply m ∈ post ∧ answers r m = true ∧ EventLoopMessage.payload m = v) ∧
  (∀ e1 a1 e2 a2 e3 m e4 a3 e5 a4,
     forallb (quiet t r) (e1 ++ e2 ++ e3 ++ e4 ++ e5) = true →
     answers r m = true →
     threads (run (Step t r :: e1 ++ Step t a1 :: e2 ++ Step t a2 :: e3 ++
                   Reply m :: e4 ++ Step t a3 :: e5 ++ [Step t a4]) s) !! t =
       Some (Postman.Returned (EventLoopMessage.payload m))).
Proof.
  intros Hwf Ht Hr.
  destruct (SchedFacts.line_187 t r _ s Hwf Ht Hr) as (H1 & _ & Hpm1).
  split; [|split].
  - destruct (SchedFacts.line_188 t r _ a _ H1) as (_ & _ & Hpm2).
    cbn [run]. rewrite Hpm2, Hpm1. done.
  - intros post v Hret. rewrite SchedFacts.run_cons in Hret.
    pose proof (SchedFacts.call_inv_first t r _ s Ht Hr) as Hinv.
    apply (SchedFacts.call_inv_run t r post) in Hinv; [|by apply SchedFacts.wf_exec].
    destruct Hinv as (response & _ & Hpc). rewrite Hret in Hpc.
    destruct Hpc as [_ Hv]. by apply SchedFacts.posted_elem.
  - intros e1 a1 e2 a2 e3 m e4 a3 e5 a4 Hq Ha.
    rewrite !forallb_app in Hq.
    destruct (andb_prop _ _ Hq) as [Hq1 Hr1]. clear Hq.
    destruct (andb_prop _ _ Hr1) as [Hq2 Hr2]. clear Hr1.
    destruct (andb_prop _ _ Hr2) as [Hq3 Hr3]. clear Hr2.
    destruct (andb_prop _ _ Hr3) as [Hq4 Hq5]. clear Hr3.
    destruct (SchedFacts.quiet_run t r _ _ e1 _ Hq1 H1) as (H1' & _ & _).
    destruct (SchedFacts.line_188 t r _ a1 _ H1') as (H2 & _ & _).
    destruct (SchedFacts.quiet_run t r _ _ e2 _ Hq2 H2) as (H2' & _ & _).
    destruct (SchedFacts.line_189 t r _ a2 _ H2') as (H3 & Hin).
    destruct (SchedFacts.quiet_run t r _ _ e3 _ Hq3 H3) as (H3' & Hin3 & _).
    assert (Hreg : Postman.in_waiting
              (postman (run e3 (exec (Step t a2) (run e2 (exec (Step t a1)
                 (run e1 (exec (Step t r) s))))))) !! r = Some r).
    { apply Hin3. rewrite Hin. apply lookup_insert_eq. }
    destruct (SchedFacts.reply_resolves t r _ _ m _ H3' Hreg Ha) as (H4 & _).
    destruct (SchedFacts.quiet_run t r _ _ e4 _ Hq4 H4) as (H4' & _ & _).
    pose proof (SchedFacts.line_190 t r _ a3 _ H4' eq_refl) as H5.
    destruct (SchedFacts.quiet_run t r _ _ e5 _ Hq5 H5) as (H5' & _ & _).
    pose proof (SchedFacts.line_191 t r _ a4 _ H5') as H6.
    by rewrite SchedFacts.run_cons, SchedFacts.run_app, SchedFacts.run_cons,
      SchedFacts.run_app, SchedFacts.run_cons, SchedFacts.run_app,
      SchedFacts.run_cons, SchedFacts.run_app, SchedFacts.run_cons,
      SchedFacts.run_app.
Qed.

Lemma sample_waiting :
  at_line 0 512 (Postman.AtWait 512)
          (EventLoopResponse.init (Command.javascript "1+1") true 512) Sample.waiting.
Proof.
  split; [reflexivity|]. split; [reflexivity|].
  apply SchedFacts.wf_run, SchedFacts.wf_init.
Qed.

Lemma last_reply_wins_witness :
  threads (run [Reply (Sample.reply 2); Reply (Sample.reply 3); Step 0 0; Step 0 0]
               Sample.waiting) !! 0%nat = Some (Postman.Returned (JNum 3)) ∧
  threads (run [Reply (Sample.reply 2); Step 0 0; Reply (Sample.reply 3); Step 0 0]
               Sample.waiting) !! 0%nat = Some (Postman.Returned (JNum 3)).
Proof.
  apply (last_reply_wins 0 512 _ (Sample.reply 2) (Sample.reply 3) 0 0 Sample.waiting
           sample_waiting); reflexivity.
Defined.

Lemma reload_keeps_call_waiting_witness :
  let s' := exec Invalidate Sample.waiting in
  Postman.outgoing_packet_queue (postman s') = [] ∧
  Postman.in_waiting (postman s') = Postman.in_waiting (postman Sample.waiting) ∧
  (∀ addr, exec (Step 0 addr) s' = s') ∧
  threads (run [Reply (Sample.reply 2); Step 0 0; Step 0 0] s') !! 0%nat =
    Some (Postman.Returned (JNum 2)).
Proof.
  apply (reload_keeps_call_waiting 0 512 _ (Sample.reply 2) 0 0 Sample.waiting
           sample_waiting); reflexivity.
Defined.

Lemma get_input_data_returns_witness :
  Postman.outgoing_packet_queue (postman (run [Step 0 512; Step 0 0] Sample.reading)) =
    Postman.outgoing_packet_queue (postman Sample.reading) ++
    [ {| Packet.topic := "javascript"; Packet.id := 512;
         Packet.should_respond := true;
         Packet.payload := JStr (Page.element "speed" +:+ ".value;") |} ] ∧
  (∀ post v,
     threads (run (Step 0 512 :: post) Sample.reading) !! 0%nat =
       Some (Postman.Returned v) →
     ∃ m, Reply m ∈ post ∧ answers 512 m = true ∧ EventLoopMessage.payload m = v) ∧
  (∀ e1 a1 e2 a2 e3 m e4 a3 e5 a4,
     forallb (quiet 0 512) (e1 ++ e2 ++ e3 ++ e4 ++ e5) = true →
     answers 512 m = true →
     threads (run (Step 0 512 :: e1 ++ Step 0 a1 :: e2 ++ Step 0 a2 :: e3 ++
                   Reply m :: e4 ++ Step 0 a3 :: e5 ++ [Step 0 a4]) Sample.reading)
       !! 0%nat = Some (Postman.Returned (EventLoopMessage.payload m))).
Proof.
  apply (get_input_data_returns "speed" 0 512 0 Sample.reading).
  - split; intros ? ?; cbn; by rewrite lookup_empty.
  - reflexivity.
  - reflexivity.
Defined.

Lemma sends_then_polls_witness :
  delivered (trace (run (map send_of [(Command.javascript "a()", 1);
                                      (Command.update_interval 50, 2)] ++
                         map Poll [600; 601]) Sched.init)) =
  map serialized [(Command.javascript "a()", 1); (Command.update_interval 50, 2)].
Proof.
  apply (SchedFacts.sends_then_polls
           [(Command.javascript "a()", 1); (Command.update_interval 50, 2)]
           [600; 601]).
  reflexivity.
Defined.

End SchedMore.

(** ** Buffer packets *)

Module BufferFacts.
Import Postman.

Lemma buffer_fold alloc (l : list nat) pm :
  let pm' := foldl (fun pm i =>
               put (EventLoopResponse.to_json (EventLoopResponse.nothing (alloc i))) pm)
             pm l in
  outgoing_packet_queue pm' =
    outgoing_packet_queue pm ++
    ((fun i => EventLoopResponse.to_json (EventLoopResponse.nothing (alloc i))) <$> l) ∧
  in_waiting pm' = in_waiting pm.
Proof.
  revert pm. induction l as [|i l IH]; intros pm; cbn.
  - by rewrite app_nil_r.
  - destruct (IH (put (EventLoopResponse.to_json (EventLoopResponse.nothing (alloc i))) pm))
      as [Hq Hin].
    cbn in Hq, Hin. rewrite Hq, Hin. by rewrite <- app_assoc.
Qed.

(** X17: [send_buffer_packets(n)] appends [n] no-op packets (topic
    [nothing], no reply asked, payload [None]) to the queue and none
    when [n] is zero or negative; the pending map is untouched. *)
Theorem send_buffer_packets_spec alloc n pm :
  let pm' := send_buffer_packets alloc n pm in
  (∃ packets,
     outgoing_packet_queue pm' = outgoing_packet_queue pm ++ packets ∧
     Z.of_nat (length packets) = Z.max 0 n ∧
     Forall (fun p => Packet.topic p = "nothing" ∧
                      Packet.should_respond p = false ∧
                      Packet.payload p = JNull) packets) ∧
  in_waiting pm' = in_waiting pm ∧
  (n ≤ 0 → pm' = pm).
Proof.
  intros pm'. subst pm'. unfold send_buffer_packets.
  destruct (buffer_fold alloc (seq 0 (Z.to_nat n)) pm) as [Hq Hin].
  split; [|split; [exact Hin|]].
  - eexists. split; [exact Hq|]. split.
    + rewrite length_fmap, length_seq. lia.
    + apply Forall_fmap. by apply Forall_true.
  - intros Hn. replace (Z.to_nat n) with 0%nat by lia. done.
Qed.

End BufferFacts.

(** ** The interval button of [main.py] *)

Module MainFacts.
Import Main.

Lemma click_calls alloc n calls p : (click alloc n calls p).1 = (calls + n)%nat.
Proof.
  induction n as [|n IH]; cbn [click]; [cbn; lia|].
  destruct (click alloc n calls p) as [calls' p'] eqn:Hc. cbn in IH. subst.
  cbn. lia.
Qed.

Lemma interval_text v :
  v ∈ intervals →
  str_replace newline "<br />" (pretty v +:+ "ms") = pretty v +:+ "ms" ∧ 0 < v.
Proof.
  unfold intervals. rewrite !elem_of_cons, elem_of_nil.
  intros [->|[->|[->|[->|[->|[]]]]]]; split; first [reflexivity | lia].
Qed.

Lemma nth_interval k : (k < 5)%nat → nth k intervals 0 ∈ intervals.
Proof.
  intros Hk. do 5 (destruct k as [|k]; [cbn; set_solver | ]). lia.
Qed.

(** X18: the click after [n] earlier clicks on the interval button sets
    the interval of the page to entry [n mod 5] of 75, 50, 25, 10, 100
    (so the first click sets 75 and the intervals repeat every five
    clicks) and enqueues two packets: the [update_interval] packet with
    that value and the script that labels the button with it. *)
Theorem interval_button_cycles alloc n p :
  let before := (click alloc n 0 p).2 in
  let after := (click alloc (S n) 0 p).2 in
  let v := nth (n mod 5) intervals 0 in
  Page.update_interval after = v ∧
  v ∈ intervals ∧
  Postman.outgoing_packet_queue (Page._postman after) =
    Postman.outgoing_packet_queue (Page._postman before) ++
    [ {| Packet.topic := "update_interval"; Packet.id := alloc 0%nat;
         Packet.should_respond := false; Packet.payload := JNum v |};
      {| Packet.topic := "javascript"; Packet.id := alloc 1%nat;
         Packet.should_respond := false;
         Packet.payload :=
           JStr (Page.element "update_interval_button" +:+ ".value = " +:+
                 dquote +:+ (pretty v +:+ "ms") +:+ dquote +:+ ";") |} ] ∧
  Page.update_interval (click alloc (S (n + 5)) 0 p).2 = v.
Proof.
  intros before after v.
  assert (Hstep : ∀ k, Page.update_interval (click alloc (S k) 0 p).2 =
                       nth (k mod 5) intervals 0).
  { intros k. cbn [click]. pose proof (click_calls alloc k 0 p) as Hc.
    destruct (click alloc k 0 p) as [calls' p']. cbn in Hc. subst calls'. done. }
  assert (Hv : v ∈ intervals).
  { apply nth_interval. apply Nat.mod_upper_bound. lia. }
  split; [apply Hstep|]. split; [exact Hv|]. split.
  - subst after before. cbn [click]. pose proof (click_calls alloc n 0 p) as Hc.
    destruct (click alloc n 0 p) as [calls' p']. cbn in Hc. subst calls'.
    cbn [snd]. unfold on_update_interval_click, next.
    fold v. unfold Page.set_button_text. cbn [Page.update_interval Page.set_update_interval
      Page._update_interval].
    destruct (interval_text v Hv) as [-> _]. cbn. by rewrite <- app_assoc.
  - rewrite Hstep. subst v. f_equal.
    replace (n + 5)%nat with (n + 1 * 5)%nat by lia. apply Nat.Div0.mod_add.
Qed.

End MainFacts.

(** ** robots.py and the toggle buttons *)

Module RobotFacts.
Import Robots.

Section Numbers.
Variable number : Type.
Variable zero : number.

Local Abbreviation Robot := (Robots.Robot number).
Local Abbreviation set_joint_angles := (Robots.set_joint_angles number).
Local Abbreviation joint_angles := (Robots.joint_angles number).
Local Abbreviation assign_all := (Robots.assign_all number).

Lemma set_joint_angles_inv v (r r' : Robot) :
  set_joint_angles v r = inr r' →
  ∃ items, v = AList number items ∧ length items = length (joint_angles r) ∧
           joint_angles r' = items ∧
           _link_lengths number r' = _link_lengths number r ∧
           plot_config number r' = plot_config number r ∧
           _tool_history number r' = _tool_history number r.
Proof.
  destruct v as [items|]; cbn; [|done].
  destruct (Nat.eqb (length items) (length (_joint_angles number r))) eqn:He; cbn;
    [|done].
  apply Nat.eqb_eq in He. intros [= <-]. by exists items.
Qed.

Lemma assign_all_length (values : list (Value number)) (r : Robot) :
  length (joint_angles (assign_all values r)) = length (joint_angles r).
Proof.
  revert r. induction values as [|v values IH]; intros r; [done|].
  change (assign_all (v :: values) r) with
    (assign_all values
       (match set_joint_angles v r with inr r' => r' | inl _ => r end)).
  rewrite IH.
  destruct (set_joint_angles v r) as [e|r'] eqn:Hs; [done|].
  apply set_joint_angles_inv in Hs as (items & _ & Hl & Hi & _).
  by rewrite Hi.
Qed.

Lemma joint_angles_lengths (values : list (Value number)) :
  length (joint_angles (assign_all values (WhiteRobot number zero))) = 6%nat ∧
  length (joint_angles (assign_all values (BlueRobot number zero))) = 6%nat.
Proof. split; by rewrite assign_all_length. Qed.

(** X19: the setter of [joint_angles] accepts exactly the lists that
    are as long as the current one and raises [ValueError] for every
    other value; so after any assignments, those that raised included,
    a robot has as many joint angles as it was built with: six for
    [WhiteRobot] and [BlueRobot]. *)
Theorem joint_angles_keep_length (values : list (Value number)) (r : Robot) :
  (∀ v, (∃ r', set_joint_angles v r = inr r') ↔
        (∃ items, v = AList number items ∧ length items = length (joint_angles r))) ∧
  length (joint_angles (assign_all values r)) = length (joint_angles r) ∧
  length (joint_angles (assign_all values (WhiteRobot number zero))) = 6%nat ∧
  length (joint_angles (assign_all values (BlueRobot number zero))) = 6%nat.
Proof.
  assert (Hlen : ∀ r0 : Robot,
            length (joint_angles (assign_all values r0)) = length (joint_angles r0)).
  { induction values as [|v values IH]; intros r0; [done|].
    change (assign_all (v :: values) r0) with
      (assign_all values
         (match set_joint_angles v r0 with inr r' => r' | inl _ => r0 end)).
    rewrite IH.
    destruct (set_joint_angles v r0) as [e|r'] eqn:Hs; [done|].
    apply set_joint_angles_inv in Hs as (items & _ & Hl & Hi & _).
    by rewrite Hi. }
  split; [|split; [apply Hlen | split; by rewrite Hlen]].
  intros v. split.
  - intros [r' Hs]. apply set_joint_angles_inv in Hs as (items & ? & ? & _). eauto.
  - intros (items & -> & Hl). cbn. unfold Robots.joint_angles in Hl.
    rewrite Hl, Nat.eqb_refl. cbn. eauto.
Qed.

Lemma history_fold (ops : list (HistoryOp number)) h acc :
  xs number h = (fun c => c.1.1) <$> acc →
  ys number h = (fun c => c.1.2) <$> acc →
  zs number h = (fun c => c.2) <$> acc →
  let h' := foldl (apply_op number) h ops in
  let cs := since_clear number ops acc in
  xs number h' = (fun c => c.1.1) <$> cs ∧
  ys number h' = (fun c => c.1.2) <$> cs ∧
  zs number h' = (fun c => c.2) <$> cs.
Proof.
  revert h acc. induction ops as [|op ops IH]; intros h acc Hx Hy Hz; [done|].
  destruct op as [|x y z]; cbn [foldl since_clear apply_op].
  - by apply IH.
  - apply IH; cbn; rewrite fmap_app; cbn; congruence.
Qed.

(** X20: after any run of [add_coord] and [clear] on a new tool
    history, [to_scatter] returns the x, the y and the z of the
    coordinates added since the last [clear], in the order they were
    added; so the three lists are equally long. *)
Theorem tool_history_tracks (ops : list (HistoryOp number)) :
  let h := foldl (apply_op number) (empty_history number) ops in
  let cs := since_clear number ops [] in
  to_scatter number h =
    ((fun c => c.1.1) <$> cs, (fun c => c.1.2) <$> cs, (fun c => c.2) <$> cs) ∧
  length (xs number h) = length (ys number h) ∧
  length (ys number h) = length (zs number h).
Proof.
  intros h cs.
  destruct (history_fold ops (empty_history number) [] eq_refl eq_refl eq_refl)
    as (Hx & Hy & Hz).
  fold h in Hx, Hy, Hz. fold cs in Hx, Hy, Hz.
  unfold to_scatter. rewrite Hx, Hy, Hz. by rewrite !length_fmap.
Qed.

End Numbers.
End RobotFacts.

Module ToggleFacts.
Import Toggles.

Section Numbers.
Variable number : Type.
Variable minus_one : number.

Local Abbreviation globals := (Toggles.globals number).
Local Abbreviation on_toggle_click := (Toggles.on_toggle_click number minus_one).
Local Abbreviation party_click := (Toggles.on_secret_party_mode_button_click number).

Lemma toggle_config_twice t c : toggle_config t (toggle_config t c) = c.
Proof. destruct t, c; cbn; by rewrite ?negb_involutive. Qed.

Lemma on_toggle_click_ok i t (g : globals) robot b d :
  robots number g !! i = Some robot →
  actives number g !! i = Some b →
  old_data number g !! i = Some d →
  ∃ g', on_toggle_click i t g = (g', None) ∧
        actives number g' =
          (if t is T_ACTIVE then <[i := negb b]> (actives number g)
           else actives number g) ∧
        Robots.plot_config number <$> robots number g' =
          <[i := toggle_config t (Robots.plot_config number robot)]>
            (Robots.plot_config number <$> robots number g) ∧
        old_data number g' = <[i := replicate 6 minus_one]> (old_data number g) ∧
        (t = T_HISTORY →
         Robots._tool_history number <$> robots number g' !! i =
           Some (Robots.empty_history number)).
Proof.
  intros Hr Ha Hd. unfold Toggles.on_toggle_click. rewrite Hr.
  assert (Hlt : (i < length (robots number g))%nat) by by eapply lookup_lt_Some.
  destruct t; cbn.
  - rewrite Ha. cbn. rewrite Hd. eexists. split; [done|]. cbn.
    split; [done|]. split; [|done].
    rewrite list_insert_id; [done|]. by rewrite list_lookup_fmap, Hr.
  - rewrite Hd. eexists. split; [done|]. cbn. split; [done|].
    split; [by rewrite list_fmap_insert|]. split; [done|].
    intros _. by rewrite list_lookup_insert_eq.
  - rewrite Hd. eexists. split; [done|]. cbn. split; [done|].
    split; [by rewrite list_fmap_insert|]. done.
  - rewrite Hd. eexists. split; [done|]. cbn. split; [done|].
    split; [by rewrite list_fmap_insert|]. done.
Qed.

(** X21: a click on a toggle of robot [i] raises nothing when [i] is
    an index of the three global lists; it marks robot [i], and only
    it, for replotting ([old_data[i]] becomes six times -1.0), and the
    history toggle clears the tool history of the robot.  A second
    click on the same toggle restores [actives] and the plot
    configuration of every robot. *)
Theorem toggle_twice i t (g : globals) robot b d :
  robots number g !! i = Some robot →
  actives number g !! i = Some b →
  old_data number g !! i = Some d →
  ∃ g1 g2,
    on_toggle_click i t g = (g1, None) ∧
    on_toggle_click i t g1 = (g2, None) ∧
    old_data number g1 = <[i := replicate 6 minus_one]> (old_data number g) ∧
    (t = T_HISTORY →
     Robots._tool_history number <$> robots number g1 !! i =
       Some (Robots.empty_history number)) ∧
    actives number g2 = actives number g ∧
    Robots.plot_config number <$> robots number g2 =
      Robots.plot_config number <$> robots number g.
Proof.
  intros Hr Ha Hd.
  destruct (on_toggle_click_ok i t g robot b d Hr Ha Hd)
    as (g1 & H1 & Hact1 & Hcfg1 & Hold1 & Hhist1).
  assert (Hlr : (i < length (robots number g))%nat) by by eapply lookup_lt_Some.
  assert (Hla : (i < length (actives number g))%nat) by by eapply lookup_lt_Some.
  assert (Hld : (i < length (old_data number g))%nat) by by eapply lookup_lt_Some.
  assert (Hc1 : Robots.plot_config number <$> robots number g1 !! i =
                Some (toggle_config t (Robots.plot_config number robot))).
  { rewrite <- list_lookup_fmap, Hcfg1.
    apply list_lookup_insert_eq. by rewrite length_fmap. }
  destruct (robots number g1 !! i) as [robot1|] eqn:Hr1; [|done].
  injection Hc1 as Hc1.
  assert (Ha1 : actives number g1 !! i =
                Some (if t is T_ACTIVE then negb b else b)).
  { rewrite Hact1. destruct t; [by apply list_lookup_insert_eq | done..]. }
  assert (Hd1 : old_data number g1 !! i = Some (replicate 6 minus_one)).
  { rewrite Hold1. by apply list_lookup_insert_eq. }
  destruct (on_toggle_click_ok i t g1 robot1 _ _ Hr1 Ha1 Hd1)
    as (g2 & H2 & Hact2 & Hcfg2 & _ & _).
  exists g1, g2. split; [done|]. split; [done|]. split; [done|].
  split; [by rewrite Hr1|].
  split.
  - rewrite Hact2, Hact1. destruct t; try done.
    rewrite list_insert_insert_eq, negb_involutive. by apply list_insert_id.
  - rewrite Hcfg2, Hcfg1, Hc1, toggle_config_twice, list_insert_insert_eq.
    apply list_insert_id. by rewrite list_lookup_fmap, Hr.
Qed.

Lemma party_twice c :
  Robots.line_color c = None ∨ Robots.line_color c = Some "black" →
  party (party c) = c.
Proof.
  destruct c as [[color|] ? ? ? ? ?]; cbn; intros [H|H]; try done.
  by injection H as ->.
Qed.

(** X22: after a click on the logo every robot is drawn in black or in
    no colour; a second click gives back the robots there were, if
    they were drawn in black or in no colour; [actives] and [old_data]
    are not touched. *)
Theorem party_mode_toggles (g : globals) :
  let g1 := party_click g in
  let g2 := party_click g1 in
  Forall (fun r => Robots.line_color (Robots.plot_config number r) = None ∨
                   Robots.line_color (Robots.plot_config number r) = Some "black")
         (robots number g1) ∧
  (Forall (fun r => Robots.line_color (Robots.plot_config number r) = None ∨
                    Robots.line_color (Robots.plot_config number r) = Some "black")
          (robots number g) →
   robots number g2 = robots number g) ∧
  actives number g2 = actives number g ∧ old_data number g2 = old_data number g.
Proof.
  intros g1 g2. split; [|split; [|done]].
  - cbn. apply Forall_fmap, Forall_true. intros r. cbn.
    destruct (Robots.line_color (Robots.plot_config number r)); auto.
  - intros Hall. cbn. rewrite <- list_fmap_compose.
    induction Hall as [|r rs Hr Hrs IH]; [done|]. cbn. f_equal; [|exact IH].
    rewrite (party_twice _ Hr). by destruct r.
Qed.

End Numbers.

Lemma toggle_twice_witness :
  ∃ g1 g2,
    Toggles.on_toggle_click Z (-1) 1 T_HISTORY (Toggles.start Z (-1) 0) = (g1, None) ∧
    Toggles.on_toggle_click Z (-1) 1 T_HISTORY g1 = (g2, None) ∧
    old_data Z g1 = <[1%nat := replicate 6 (-1)]> (old_data Z (Toggles.start Z (-1) 0)) ∧
    (T_HISTORY = T_HISTORY →
     Robots._tool_history Z <$> robots Z g1 !! 1%nat = Some (Robots.empty_history Z)) ∧
    actives Z g2 = actives Z (Toggles.start Z (-1) 0) ∧
    Robots.plot_config Z <$> robots Z g2 =
      Robots.plot_config Z <$> robots Z (Toggles.start Z (-1) 0).
Proof.
  apply (toggle_twice Z (-1) 1 T_HISTORY (Toggles.start Z (-1) 0)
           (Robots.BlueRobot Z 0) false (replicate 6 (-1))); reflexivity.
Defined.

End ToggleFacts.

(** ** ie_databus.py *)

Module DatabusFacts.
Import IEDatabus.

Lemma same_key_refl k : hashable k = true → same_key k k = true.
Proof.
  destruct k as [|b|n|s|?|?]; cbn; try done.
  - intros _. by destruct b.
  - intros _. apply Z.eqb_refl.
  - intros _. apply String.eqb_refl.
Qed.

Lemma bind_elem {A} k0 (x0 : A) d k x :
  hashable k0 = true → (k, x) ∈ bind k0 x0 d →
  (k, x) ∈ d ∨ (x = x0 ∧ same_key k k0 = true).
Proof.
  intros Hh. induction d as [|[k' x'] d IH]; cbn.
  - intros [= -> ->]%list_elem_of_singleton. right. by rewrite same_key_refl.
  - destruct (same_key k' k0) eqn:He.
    + intros [[= -> ->]|Hin]%elem_of_cons; [by right|]. left. by right.
    + intros [[= -> ->]|Hin]%elem_of_cons; [left; by left|].
      destruct (IH Hin) as [?|?]; [left; by right | by right].
Qed.

Lemma on_message_topic topic data self :
  write_topic (on_message topic data self).1 = write_topic self.
Proof.
  unfold on_message. destruct (String.eqb topic (write_topic self)); [done|].
  destruct (_tag_headers self) as [|h hs].
  - destruct (definitions data) as [[[]|]|dpds]; try done.
    destruct (elements dpds) as [e|points]; [done|].
    by destruct (store_headers points []).
  - destruct (item data "vals") as [e|vals]; [done|].
    destruct (elements vals) as [e|values]; [done|].
    by destruct (make_tags (h :: hs) values []).
Qed.

Lemma on_message_headers topic data self :
  _tag_headers self ≠ [] →
  _tag_headers (on_message topic data self).1 = _tag_headers self.
Proof.
  intros Hne. unfold on_message.
  destruct (String.eqb topic (write_topic self)); [done|].
  destruct (_tag_headers self) as [|h hs] eqn:Hh; [done|].
  destruct (item data "vals") as [e|vals]; [done|].
  destruct (elements vals) as [e|values]; [done|].
  destruct (make_tags (h :: hs) values []); [done|]. by cbn.
Qed.

Lemma on_message_ready topic data self :
  _ready_event self = true → _ready_event (on_message topic data self).1 = true.
Proof.
  intros Hr. unfold on_message.
  destruct (String.eqb topic (write_topic self)); [done|].
  destruct (_tag_headers self) as [|h hs].
  - destruct (definitions data) as [[[]|]|dpds]; try done.
    destruct (elements dpds) as [e|points]; [done|].
    by destruct (store_headers points []).
  - destruct (item data "vals") as [e|vals]; [done|].
    destruct (elements vals) as [e|values]; [done|].
    by destruct (make_tags (h :: hs) values []).
Qed.

(** X24: once headers are stored no message changes them, whatever it
    carries: later definitions of the PLC are never read.  The write
    topic never changes and the ready event, once set, stays set. *)
Theorem headers_frozen messages self :
  (_tag_headers self ≠ [] →
   _tag_headers (handle messages self) = _tag_headers self) ∧
  write_topic (handle messages self) = write_topic self ∧
  (_ready_event self = true → _ready_event (handle messages self) = true).
Proof.
  revert self. induction messages as [|[topic data] messages IH]; intros self;
    [done|].
  change (handle ((topic, data) :: messages) self) with
    (handle messages (on_message topic data self).1).
  destruct (IH (on_message topic data self).1) as (Hh & Ht & Hr).
  split; [|split].
  - intros Hne. rewrite Hh; rewrite on_message_headers; done.
  - by rewrite Ht, on_message_topic.
  - intros Hready. by apply Hr, on_message_ready.
Qed.

Lemma store_headers_sound points headers0 headers e :
  store_headers points headers0 = (headers, e) →
  ∀ k header, (k, header) ∈ headers →
    (k, header) ∈ headers0 ∨
    (header ∈ points ∧ ∃ i, item header "id" = inr i ∧ same_key k i = true).
Proof.
  revert headers0. induction points as [|point points IH]; intros headers0; cbn.
  - intros [= <- <-] k header Hin. by left.
  - destruct (item point "id") as [e'|i] eqn:Hi.
    { intros [= <- <-] k header Hin. by left. }
    unfold set. destruct (hashable i) eqn:Hh.
    2:{ intros [= <- <-] k header Hin. by left. }
    intros Hs k header Hin.
    destruct (IH _ Hs k header Hin) as [Hb|[Hp Hrest]].
    + apply bind_elem in Hb as [?|[-> Hk]]; [by left | | done].
      right. split; [by left | eauto].
    + right. split; [by right | done].
Qed.

(** X25: while no header is stored, a message on another topic than
    the write topic is dropped without an exception when a key is
    missing on the way to its definitions, and raises when the way
    fails otherwise (an empty list, a value that has no items); both
    leave the state as it is.  When the definitions are found, the
    tags and the ready event are untouched, and every header stored is
    one of the definitions, stored under its own id. *)
Theorem first_definitions topic data self :
  _tag_headers self = [] →
  String.eqb topic (write_topic self) = false →
  match definitions data with
  | inl (Py KeyError) => on_message topic data self = (self, None)
  | inl e => on_message topic data self = (self, Some e)
  | inr dpds =>
      let s' := (on_message topic data self).1 in
      _tags s' = _tags self ∧ _ready_event s' = _ready_event self ∧
      ∀ k header, (k, header) ∈ _tag_headers s' →
        ∃ points i, elements dpds = inr points ∧ header ∈ points ∧
                    item header "id" = inr i ∧ same_key k i = true
  end.
Proof.
  intros Hh Ht. unfold on_message. rewrite Ht, Hh.
  destruct (definitions data) as [[[]|]|dpds]; try done.
  destruct (elements dpds) as [e|points] eqn:He.
  { cbn. split; [done|]. split; [done|]. rewrite Hh. by intros k header ?%elem_of_nil. }
  destruct (store_headers points []) as [headers e] eqn:Hs. cbn.
  split; [done|]. split; [done|].
  intros k header Hin.
  destruct (store_headers_sound _ _ _ _ Hs k header Hin) as [Hnil|[Hp (i & Hi & Hk)]].
  - by apply elem_of_nil in Hnil.
  - by exists points, i.
Qed.

Lemma make_tag_sound headers value_dict tags tags' :
  make_tag headers value_dict tags = inr tags' →
  ∀ k tag, (k, tag) ∈ tags' →
    (k, tag) ∈ tags ∨ (same_key k (name tag) = true ∧ built_from headers value_dict tag).
Proof.
  unfold make_tag.
  destruct (item value_dict "id") as [?|i] eqn:H1; [done|].
  destruct (get i headers) as [?|header] eqn:H2; [done|].
  destruct (item header "name") as [?|n] eqn:H3; [done|].
  destruct (item header "id") as [?|hid] eqn:H4; [done|].
  destruct (item header "dataType") as [?|dt] eqn:H5; [done|].
  destruct (item value_dict "qc") as [?|q] eqn:H6; [done|].
  destruct (item value_dict "ts") as [?|ts0] eqn:H7; [done|].
  destruct (item value_dict "val") as [?|v] eqn:H8; [done|].
  unfold set. destruct (hashable n) eqn:Hh; [|done].
  intros [= <-] k tag Hin.
  apply bind_elem in Hin as [?|[-> Hk]]; [by left | | done].
  right. split; [done|]. exists i, header. by cbn.
Qed.

Lemma make_tags_sound headers values tags0 tags :
  make_tags headers values tags0 = inr tags →
  ∀ k tag, (k, tag) ∈ tags →
    (k, tag) ∈ tags0 ∨
    (same_key k (name tag) = true ∧
     ∃ value_dict, value_dict ∈ values ∧ built_from headers value_dict tag).
Proof.
  revert tags0. induction values as [|v values IH]; intros tags0; cbn.
  - intros [= <-] k tag Hin. by left.
  - destruct (make_tag headers v tags0) as [?|tags1] eqn:Hv; [done|].
    intros Hs k tag Hin.
    destruct (IH _ Hs k tag Hin) as [H1|(Hk & value_dict & Hin' & Hb)].
    + destruct (make_tag_sound _ _ _ _ Hv k tag H1) as [?|[Hk Hb]]; [by left|].
      right. split; [done|]. exists v. split; [by left | done].
    + right. split; [done|]. exists value_dict. split; [by right | done].
Qed.

(** X26: once headers are stored, a message on another topic than the
    write topic either raises and leaves the state as it is, or
    replaces all the tags and sets the ready event: every tag there is
    afterwards was built from a value of this message and the header
    stored for its id, and is stored under its name. *)
Theorem value_message_all_or_nothing topic data self :
  _tag_headers self ≠ [] →
  String.eqb topic (write_topic self) = false →
  match (on_message topic data self).2 with
  | Some _ => (on_message topic data self).1 = self
  | None =>
      let s' := (on_message topic data self).1 in
      _ready_event s' = true ∧
      _tag_headers s' = _tag_headers self ∧
      ∃ vals values,
        item data "vals" = inr vals ∧ elements vals = inr values ∧
        ∀ k tag, (k, tag) ∈ tags s' →
          same_key k (name tag) = true ∧
          ∃ value_dict, value_dict ∈ values ∧
                        built_from (_tag_headers self) value_dict tag
  end.
Proof.
  intros Hne Ht. unfold on_message. rewrite Ht.
  destruct (_tag_headers self) as [|h hs] eqn:Hh; [done|].
  destruct (item data "vals") as [e|vals] eqn:Hv; [done|].
  destruct (elements vals) as [e|values] eqn:He; [done|].
  destruct (make_tags (h :: hs) values []) as [e|built] eqn:Hm; [done|].
  cbn. split; [done|]. split; [done|].
  exists vals, values. split; [done|]. split; [done|].
  intros k tag Hin.
  destruct (make_tags_sound _ _ _ _ Hm k tag Hin) as [Hnil|?]; [|done].
  by apply elem_of_nil in Hnil.
Qed.

Lemma first_definitions_witness :
  let s' := (on_message "ie/m" header_message IEDatabus.init).1 in
  _tags s' = _tags IEDatabus.init ∧ _ready_event s' = _ready_event IEDatabus.init ∧
  ∀ k header, (k, header) ∈ _tag_headers s' →
    ∃ points i,
      elements (JList [JObj [("name", JStr "M_R01_S"); ("id", JStr "101");
                             ("dataType", JStr "Real")];
                       JObj [("name", JStr "M_R01_L"); ("id", JStr "102");
                             ("dataType", JStr "Real")]]) = inr points ∧
      header ∈ points ∧ item header "id" = inr i ∧ same_key k i = true.
Proof.
  exact (first_definitions "ie/m" header_message IEDatabus.init eq_refl eq_refl).
Defined.

Lemma value_message_all_or_nothing_witness :
  let s := (on_message "ie/m" header_message IEDatabus.init).1 in
  let s' := (on_message "ie/d" value_message s).1 in
  _ready_event s' = true ∧
  _tag_headers s' = _tag_headers s ∧
  ∃ vals values,
    item value_message "vals" = inr vals ∧ elements vals = inr values ∧
    ∀ k tag, (k, tag) ∈ tags s' →
      same_key k (name tag) = true ∧
      ∃ value_dict, value_dict ∈ values ∧ built_from (_tag_headers s) value_dict tag.
Proof.
  apply (value_message_all_or_nothing "ie/d" value_message
           (on_message "ie/m" header_message IEDatabus.init).1).
  - discriminate.
  - reflexivity.
Defined.

Lemma same_key_str k tag : same_key k (JStr tag) = true ↔ k = JStr tag.
Proof.
  destruct k as [|b|n|s|?|?]; cbn; try (split; [done | by intros [=]]).
  rewrite String.eqb_eq. split; [by intros -> | by intros [= ->]].
Qed.

Lemma find_Some {A} k (d : list (Json * A)) v :
  find k d = Some v → ∃ k', (k', v) ∈ d ∧ same_key k' k = true.
Proof.
  induction d as [|[k' v'] d IH]; cbn; [done|].
  destruct (same_key k' k) eqn:He.
  - intros [= ->]. exists k'. split; [by left | done].
  - intros Hf. destruct (IH Hf) as (k'' & Hin & Hk). exists k''.
    split; [by right | done].
Qed.

Lemma find_None {A} k (d : list (Json * A)) :
  find k d = None → ∀ k' v, (k', v) ∈ d → same_key k' k = false.
Proof.
  induction d as [|[k0 v0] d IH]; cbn; [by intros _ k' v ?%elem_of_nil|].
  destruct (same_key k0 k) eqn:He; [done|].
  intros Hf k' v [[= -> ->]|Hin]%elem_of_cons; [done|]. by eapply IH.
Qed.

(** X27: [write_to_tag(tag, data)] raises [KeyError] exactly when no
    tag is stored under the name [tag], as before the first values
    arrived; otherwise what it publishes is sequence number 1 and one
    value: [data], for the id of a tag stored under that name. *)
Theorem write_to_tag_spec tag data self :
  (write_to_tag tag data self = inl (Py KeyError) ↔
   ∀ found, (JStr tag, found) ∉ tags self) ∧
  (∀ payload, write_to_tag tag data self = inr payload →
     ∃ found, (JStr tag, found) ∈ tags self ∧
              payload = JObj [("seq", JNum 1);
                              ("vals", JList [JObj [("id", id found); ("val", data)]])]) ∧
  write_to_tag tag data IEDatabus.init = inl (Py KeyError).
Proof.
  split; [|split; [|done]].
  - unfold write_to_tag, get. cbn.
    destruct (find (JStr tag) (tags self)) as [found|] eqn:Hf.
    + split; [done|]. intros Hno.
      destruct (find_Some _ _ _ Hf) as (k' & Hin & ->%same_key_str).
      by destruct (Hno found).
    + split; [|done]. intros _ found Hin.
      pose proof (find_None _ _ Hf _ _ Hin) as Hk.
      by rewrite (proj2 (same_key_str (JStr tag) tag) eq_refl) in Hk.
  - intros payload. unfold write_to_tag, get. cbn.
    destruct (find (JStr tag) (tags self)) as [found|] eqn:Hf; [|done].
    intros [= <-]. destruct (find_Some _ _ _ Hf) as (k' & Hin & ->%same_key_str).
    by exists found.
Qed.

End DatabusFacts.

(** ** Reading the joint angles *)

Module MainLoopFacts.
Import MainLoop.

Lemma read_group_spec current_tags tag_group :
  match read_group current_tags tag_group with
  | inl e => e = IEDatabus.Py KeyError
  | inr row => length row = length tag_group
  end.
Proof.
  induction tag_group as [|tag rest IH]; cbn; [done|].
  unfold IEDatabus.get. cbn.
  destruct (IEDatabus.find (JStr tag) current_tags); [|done].
  destruct (read_group current_tags rest); [done|]. cbn. by rewrite IH.
Qed.

Lemma read_groups_spec current_tags groups :
  Forall (fun g => length g = 6%nat) groups →
  match read_groups current_tags groups with
  | inl e => e = IEDatabus.Py KeyError
  | inr rows => length rows = length groups ∧
                Forall (fun row => length row = 6%nat) rows
  end.
Proof.
  induction 1 as [|g groups Hg Hgroups IH]; cbn; [done|].
  pose proof (read_group_spec current_tags g) as Hrow.
  destruct (read_group current_tags g) as [e|row]; [done|].
  destruct (read_groups current_tags groups) as [e|rows]; [done|].
  destruct IH as [Hlen Hall]. split; [cbn; by rewrite Hlen|].
  constructor; [congruence | done].
Qed.

(** X28: [get_joint_data] either raises [KeyError], a tag of a robot
    is not among the tags of the databus, or returns one row per robot
    with six values each; so the setter of [joint_angles] accepts every
    row it returns, for a [WhiteRobot] and for a [BlueRobot], whatever
    was assigned to them before. *)
Theorem get_joint_data_rows robots databus (zero : Json)
    (before : list (Robots.Value Json)) :
  match get_joint_data robots databus with
  | inl e => e = IEDatabus.Py KeyError
  | inr rows =>
      length rows = robots ∧
      ∀ row, row ∈ rows →
        length row = 6%nat ∧
        (∃ r, Robots.set_joint_angles Json (Robots.AList Json row)
                (Robots.assign_all Json before (Robots.WhiteRobot Json zero)) = inr r) ∧
        (∃ r, Robots.set_joint_angles Json (Robots.AList Json row)
                (Robots.assign_all Json before (Robots.BlueRobot Json zero)) = inr r)
  end.
Proof.
  unfold get_joint_data.
  assert (Hnames : Forall (fun g => length g = 6%nat) (tag_names robots)).
  { unfold tag_names. apply Forall_fmap, Forall_true. intros i. reflexivity. }
  pose proof (read_groups_spec (IEDatabus.tags databus) _ Hnames) as Hspec.
  destruct (read_groups (IEDatabus.tags databus) (tag_names robots)) as [e|rows];
    [done|].
  destruct Hspec as [Hlen Hall]. split.
  - rewrite Hlen. unfold tag_names. by rewrite length_fmap, length_seq.
  - intros row Hrow. rewrite Forall_forall in Hall. pose proof (Hall row Hrow) as H6.
    split; [done|].
    destruct (RobotFacts.joint_angles_lengths Json zero before) as [Hw Hb].
    split; cbn; unfold Robots.joint_angles in *.
    + rewrite H6, Hw. cbn. eauto.
    + rewrite H6, Hb. cbn. eauto.
Qed.

End MainLoopFacts.
